(** * convertImage.py: PlayStation 1 image/texture data converter

    A shallow embedding of [tools/convertImage.py] and the properties of
    its colour encoder, exact quantizer, palette extractor and indexed
    packer.

    Conventions.  A NumPy [uint8]/[uint16] cell is a [Z]; every [uint16]
    operation of the script is written with its wrap-around ([u16]), every
    [uint8] one with [u8].  A 2-D array is a list of rows, a 3-D array a
    list of rows of pixels, a pixel being the list of its channel bytes.
    Exceptions are the [Error] results of [result]. *)

From Stdlib Require Import ZArith List Lia Bool.
From stdpp Require Import base list sorting.
Import ListNotations.

Open Scope Z_scope.

(** ** Machine integers *)

Definition u8 (x : Z) : Z := x mod 256.
Definition u16 (x : Z) : Z := x mod 65536.

Definition is_u8 (x : Z) : Prop := 0 <= x < 256.

(** ** Arrays *)

(** One cell of the last axis: the channel bytes of a pixel. *)
Definition pixel : Type := list Z.

(** [a[:, :, k]] at one pixel of an array that has channel [k]; on an
    array without it the source raises [IndexError], and nothing below is
    stated about such arrays. *)
Definition channel (k : nat) (px : pixel) : Z := nth k px 0.

(** A [(H, W, C)] array: [shape2] is [C]. *)
Record ndarray3 : Type := mkArray3 {
  shape2 : nat;
  cells  : list (list pixel)
}.

(** ** Image data conversion: [to16bpp] *)

Definition LOWER_ALPHA_BOUND : Z := 32.
Definition UPPER_ALPHA_BOUND : Z := 224.

Definition TRANSPARENT_COLOR : Z := 0x0000.
Definition BLACK_COLOR       : Z := 0x0421.
Definition STP_BLACK_COLOR   : Z := 0x8000.

(** [((source[:, :, k] * 31) + 127) // 255] on [uint16] cells. *)
Definition rescale5 (c : Z) : Z := u16 (u16 (c * 31) + 127) / 255.

(** [r | (g << 5) | (b << 10)] on [uint16] cells. *)
Definition solid_word (r g b : Z) : Z :=
  Z.lor (Z.lor (rescale5 r) (u16 (Z.shiftl (rescale5 g) 5)))
        (u16 (Z.shiftl (rescale5 b) 10)).

(** [solid | (1 << 15)]. *)
Definition semitransparent_word (r g b : Z) : Z :=
  Z.lor (solid_word r g b) (Z.shiftl 1 15).

(** [np.copyto(data, src, where = mask)] at one cell. *)
Definition copyto (data src : Z) (mask : bool) : Z :=
  if mask then src else data.

(** The body of [to16bpp] at one pixel with channels [r g b] and alpha
    [alpha]: the three [np.copyto] calls in the order of the script. *)
Definition encode (r g b alpha : Z) (forceSTP useSTPBlack : bool) : Z :=
  let solid           := solid_word r g b in
  let semitransparent := semitransparent_word r g b in
  let data := TRANSPARENT_COLOR in
  let data := copyto data semitransparent (alpha >=? LOWER_ALPHA_BOUND) in
  if negb forceSTP then
    let data := copyto data solid (alpha >=? UPPER_ALPHA_BOUND) in
    copyto data
      (if useSTPBlack then STP_BLACK_COLOR else BLACK_COLOR)
      ((alpha >=? UPPER_ALPHA_BOUND) && (solid =? TRANSPARENT_COLOR))
  else data.

(** The alpha plane: [inputData[:, :, 3]] when [shape[2] == 4], a plane of
    [0xff] otherwise. *)
Definition alpha_of (c : nat) (px : pixel) : Z :=
  if Nat.eqb c 4 then channel 3 px else 0xff.

Definition to16bpp_pixel (c : nat) (px : pixel)
    (forceSTP useSTPBlack : bool) : Z :=
  encode (channel 0 px) (channel 1 px) (channel 2 px) (alpha_of c px)
         forceSTP useSTPBlack.

Definition to16bpp (inputData : ndarray3)
    (forceSTP useSTPBlack : bool) : list (list Z) :=
  map (map (fun px =>
              to16bpp_pixel (shape2 inputData) px forceSTP useSTPBlack))
      (cells inputData).

(** ** Results and exceptions *)

Inductive error : Type :=
  (** [RuntimeError]: "source image contains [actual] unique colors (must
      be [limit] or less)". *)
  | RuntimeError (actual : nat) (limit : Z)
  (** [np.frombuffer]: buffer size must be a multiple of element size. *)
  | ValueError_buffer_size (size : nat)
  (** assignment: could not broadcast input array. *)
  | ValueError_broadcast (from to : nat)
  (** [np.zeros]: negative dimensions are not allowed. *)
  | ValueError_negative_dimensions (n : Z)
  (** [putpalette]: invalid palette size (more than 256 entries). *)
  | ValueError_palette_size (entries : nat)
  (** [parser.error("path to palette data must be specified")]. *)
  | ParserError_palette_path.

Inductive result (A : Type) : Type :=
  | Ok (a : A)
  | Error (e : error).
Arguments Ok {A} a.
Arguments Error {A} e.

Definition bind {A B : Type} (r : result A) (k : A -> result B) : result B :=
  match r with
  | Ok a => k a
  | Error e => Error e
  end.

Notation "'let*' x ':=' r 'in' k" := (bind r (fun x => k))
  (at level 10, x name, r at level 100, k at level 200).

(** ** Images *)

(** The modes [quantizeImage] works on; any other mode is first converted
    to ["RGBA"] by Pillow. *)
Inductive Mode : Type := RGB | RGBA.

Definition bands (m : Mode) : nat :=
  match m with RGB => 3 | RGBA => 4 end.

(** A truecolour image: [np.asarray(imageObj, "B")] is [pixels], of shape
    [(height, width, bands mode)]. *)
Record Image : Type := mkImage {
  mode   : Mode;
  height : nat;
  width  : nat;
  pixels : list (list pixel)
}.

(** A mode ["P"] image: index rows, the stored palette with its raw mode,
    and [info["transparency"]] when present. *)
Record PImage : Type := mkPImage {
  p_height       : nat;
  p_width        : nat;
  p_data         : list (list Z);
  p_rawmode      : Mode;
  p_palette      : list pixel;
  p_transparency : option (list Z)
}.

(** Every row has [w] cells and there are [h] rows. *)
Definition has_shape {A : Type} (h w : nat) (a : list (list A)) : Prop :=
  length a = h /\ Forall (fun r => length r = w) a.

(** ** Exact quantization: [quantizeImage] *)

(** Row order of [np.unique(..., axis = 0)]: rows are compared byte by
    byte from the first column on. *)
Fixpoint lex_compare (a b : pixel) : comparison :=
  match a, b with
  | [], [] => Eq
  | [], _ :: _ => Lt
  | _ :: _, [] => Gt
  | x :: a', y :: b' =>
      match x ?= y with
      | Eq => lex_compare a' b'
      | c => c
      end
  end.

Definition lex_le (a b : pixel) : Prop := lex_compare a b <> Gt.
Definition lex_lt (a b : pixel) : Prop := lex_compare a b = Lt.

#[global] Instance lex_le_dec : RelDecision lex_le.
Proof.
  intros a b. unfold lex_le.
  destruct (lex_compare a b); [left | left | right]; congruence.
Defined.

(** Rows that differ from their predecessor: [mask[1:] = ar[1:] != ar[:-1]]. *)
Fixpoint keep_changes (prev : pixel) (l : list pixel) : list pixel :=
  match l with
  | [] => []
  | x :: t =>
      if decide (x = prev) then keep_changes x t else x :: keep_changes x t
  end.

(** [mask[:1] = True]: the first row is always kept. *)
Definition drop_repeats (l : list pixel) : list pixel :=
  match l with
  | [] => []
  | x :: t => x :: keep_changes x t
  end.

(** The first result of [np.unique(ar, axis = 0)]: sort, then drop
    repeated rows. *)
Definition np_unique (ar : list pixel) : list pixel :=
  drop_repeats (merge_sort lex_le ar).

(** Position of [px] in [clut] ([length clut] when absent). *)
Fixpoint index_of (px : pixel) (clut : list pixel) : nat :=
  match clut with
  | [] => O
  | c :: t => if decide (px = c) then O else S (index_of px t)
  end.

(** The second result with [return_inverse = True]: for every input row
    the index of that row in the unique array. *)
Definition np_unique_inverse (ar : list pixel) : list nat :=
  map (fun px => index_of px (np_unique ar)) ar.

(** [quantizeImage].  The pixel array is flattened to [(-1, C)] for
    [np.unique]; the inverse is cast to [uint8] and reshaped back to
    [(height, width)], which is written here row by row.  The palette of
    a mode ["P"] image holds at most 256 entries: [putpalette] raises on
    a longer one. *)
Definition quantizeImage (imageObj : Image) (numColors : Z) : result PImage :=
  let image := concat (pixels imageObj) in
  let clut  := np_unique image in
  if Z.of_nat (length clut) >? numColors then
    Error (RuntimeError (length clut) numColors)
  else
    let image :=
      map (map (fun px => u8 (Z.of_nat (index_of px clut))))
          (pixels imageObj) in
    (* newObj.putpalette(clut.tobytes(), imageObj.mode) *)
    if (256 <? length clut)%nat then
      Error (ValueError_palette_size (length clut))
    else
      Ok {| p_height       := height imageObj;
            p_width        := width imageObj;
            p_data         := image;
            p_rawmode      := mode imageObj;
            p_palette      := clut;
            p_transparency := None |}.

(** The distinct colours of an image, collected without sorting. *)
Definition distinct_colors (imageObj : Image) : list pixel :=
  remove_dups (concat (pixels imageObj)).

(** ** Palette extraction: [getImagePalette] *)

(** One entry of [getpalette("RGBA")]: a stored RGB entry gets alpha 255. *)
Definition to_rgba (m : Mode) (px : pixel) : pixel :=
  match m with
  | RGB  => [channel 0 px; channel 1 px; channel 2 px; 0xff]
  | RGBA => [channel 0 px; channel 1 px; channel 2 px; channel 3 px]
  end.

(** [np.array(imageObj.getpalette("RGBA"), "B").reshape((-1, 4))]. *)
Definition getpalette_RGBA (imageObj : PImage) : list pixel :=
  map (to_rgba (p_rawmode imageObj)) (p_palette imageObj).

(** [bytes.ljust(width, fill)]. *)
Definition ljust (s : list Z) (w : nat) (fill : Z) : list Z :=
  s ++ repeat fill (w - length s)%nat.

(** Consecutive groups of eight bytes. *)
Fixpoint chunks8 (l : list Z) : list (list Z) :=
  match l with
  | a :: b :: c :: d :: e :: f :: g :: h :: t =>
      [a; b; c; d; e; f; g; h] :: chunks8 t
  | _ => []
  end.

(** [clut[i, 3] = v]. *)
Definition set_alpha (px : pixel) (v : Z) : pixel := <[3%nat := v]> px.

Section PaletteExtractor.

(** The value a [uint8] cell takes when the [float64] whose eight bytes
    are given is stored into it; floating point is not modelled. *)
Variable f64_to_u8 : list Z -> Z.

(** [np.frombuffer(buf)]: the default element type is [float64], so the
    buffer is read eight bytes at a time. *)
Definition frombuffer (buf : list Z) : result (list (list Z)) :=
  if Nat.eqb (length buf mod 8) 0 then Ok (chunks8 buf)
  else Error (ValueError_buffer_size (length buf)).

(** [clut[:, 3] = values], with NumPy's broadcasting of a one-element
    array. *)
Definition assign_alpha (clut : list pixel) (values : list Z)
    : result (list pixel) :=
  if Nat.eqb (length values) (length clut) then
    Ok (zip_with set_alpha clut values)
  else if Nat.eqb (length values) 1 then
    Ok (map (fun px => set_alpha px (nth 0 values 0)) clut)
  else Error (ValueError_broadcast (length values) (length clut)).

Definition getImagePalette (imageObj : PImage) : result (list pixel) :=
  let clut := getpalette_RGBA imageObj in
  match p_transparency imageObj with
  | Some alpha =>
      let* floats := frombuffer (ljust alpha (length clut) 0xff) in
      assign_alpha clut (map f64_to_u8 floats)
  | None => Ok clut
  end.

End PaletteExtractor.

(** The merge as the specification words it: one unsigned byte per
    transparency entry, extended with [0xFF] for the missing trailing
    indices. *)
Definition getImagePalette_bytewise (imageObj : PImage) : list pixel :=
  let clut := getpalette_RGBA imageObj in
  match p_transparency imageObj with
  | Some alpha => zip_with set_alpha clut (ljust alpha (length clut) 0xff)
  | None => clut
  end.

(** ** Indexed packing: [convertIndexedImage] *)

(** [np.zeros((h, w))]. *)
Definition zeros (h w : nat) : list (list Z) := repeat (repeat 0 w) h.

(** [np.c_[a, b]]: the columns of [b] appended to those of [a]. *)
Definition c_ (a b : list (list Z)) : list (list Z) := zip_with app a b.

(** [row[0::2]] and [row[1::2]]. *)
Fixpoint slice_even (row : list Z) : list Z :=
  match row with
  | x :: _ :: t => x :: slice_even t
  | _ => row
  end.

Fixpoint slice_odd (row : list Z) : list Z :=
  match row with
  | _ :: y :: t => y :: slice_odd t
  | _ => []
  end.

(** [image[:, 0::2] | (image[:, 1::2] << 4)] on one row of [uint8] cells. *)
Definition pack_nibbles (row : list Z) : list Z :=
  zip_with (fun lo hi => Z.lor lo (u8 (Z.shiftl hi 4)))
           (slice_even row) (slice_odd row).

(** [if image.shape[1] % 2: image = np.c_[image, np.zeros((height, 1))]],
    on an array carried with its [shape[1]]. *)
Definition pad_odd_width (h : nat) (a : list (list Z) * nat)
    : list (list Z) * nat :=
  let '(image, w) := a in
  if Nat.odd w then (c_ image (zeros h 1), S w) else (image, w).

Section IndexedPacker.

Variable f64_to_u8 : list Z -> Z.

Definition convertIndexedImage (imageObj : PImage)
    (forceSTP useSTPBlack : bool)
    : result (list (list Z) * list (list Z)) :=
  let* palette := getImagePalette f64_to_u8 imageObj in
  let clut :=
    to16bpp {| shape2 := 4; cells := [palette] |} forceSTP useSTPBlack in
  (* Pad the palette to 16 or 256 colors after converting it to 16bpp. *)
  let numColors := length palette in
  let padAmount :=
    (if (numColors <=? 16)%nat then 16 else 256) - Z.of_nat numColors in
  let* clut :=
    if padAmount =? 0 then Ok clut
    else if padAmount <? 0 then
      Error (ValueError_negative_dimensions padAmount)
    else Ok (c_ clut (zeros 1 (Z.to_nat padAmount))) in
  let image := (p_data imageObj, p_width imageObj) in
  let image := pad_odd_width (p_height imageObj) image in
  (* Pack two pixels into each byte for 4bpp images. *)
  let image :=
    if (numColors <=? 16)%nat then
      let packed := (map pack_nibbles (fst image), Nat.div2 (snd image)) in
      pad_odd_width (p_height imageObj) packed
    else image in
  Ok (fst image, clut).

(** ** Main *)

(** [--bpp], restricted by the parser to [choices = (4, 8, 16)]. *)
Inductive Bpp : Type := Bpp4 | Bpp8 | Bpp16.

Definition bpp_value (b : Bpp) : Z :=
  match b with Bpp4 => 4 | Bpp8 => 8 | Bpp16 => 16 end.

(** The parsed arguments; [clutOutput] tells whether the optional
    palette path was given. *)
Record Namespace : Type := mkArgs {
  bpp        : Bpp;
  force_stp  : bool;
  stp_black  : bool;
  input      : Image;
  clutOutput : bool
}.

(** [args.input.convert("RGBA")] as an array. *)
Definition convert_RGBA (imageObj : Image) : ndarray3 :=
  {| shape2 := 4;
     cells  := map (map (to_rgba (mode imageObj))) (pixels imageObj) |}.

(** [main]: the arrays written to [imageOutput] and, for an indexed
    depth, to [clutOutput].  [to16bpp] is called with [args.force_stp]
    only, so [useSTPBlack] keeps its default [False].  The [RuntimeError]
    of [quantizeImage] is handed to [parser.error], which ends the run
    before anything is written. *)
Definition main (args : Namespace)
    : result (list (list Z) * option (list (list Z))) :=
  if bpp_value (bpp args) =? 16 then
    let imageData := convert_RGBA (input args) in
    let imageData := to16bpp imageData (force_stp args) false in
    Ok (imageData, None)
  else
    if negb (clutOutput args) then Error ParserError_palette_path
    else
      let* image := quantizeImage (input args) (2 ^ bpp_value (bpp args)) in
      let* out :=
        convertIndexedImage image (force_stp args) (stp_black args) in
      Ok (fst out, Some (snd out)).

End IndexedPacker.

(** The direct conversion as the specification words it: the encoder run
    over every pixel with both requested flags. *)
Definition direct16_both_flags (imageObj : Image)
    (forceSTP useSTPBlack : bool) : list (list Z) :=
  to16bpp (convert_RGBA imageObj) forceSTP useSTPBlack.

(** ** Reference layouts

    The layouts of the specification, written from its words; the theorems
    below compare [convertIndexedImage] and [main] with them. *)

(** A row extended by one zero cell when its length is odd. *)
Definition pad_even (row : list Z) : list Z :=
  if Nat.odd (length row) then row ++ [0] else row.

(** Depth 8 as specified: one byte per index, rows of odd width extended
    by one zero column. *)
Definition one_byte_per_pixel (indices : list (list Z)) : list (list Z) :=
  map pad_even indices.

(** Depth 4 as specified: rows padded to an even width, adjacent columns
    packed into one byte, packed rows padded to an even byte count. *)
Definition nibble_packed (indices : list (list Z)) : list (list Z) :=
  map (fun row => pad_even (pack_nibbles (pad_even row))) indices.

(** The encoded palette followed by zero entries up to 16 or 256. *)
Definition padded_clut (palette : list pixel)
    (forceSTP useSTPBlack : bool) : list Z :=
  map (fun px => to16bpp_pixel 4 px forceSTP useSTPBlack) palette ++
  repeat 0 ((if (length palette <=? 16)%nat then 16 else 256)
            - length palette)%nat.

Definition distinct_count (imageObj : Image) : nat :=
  length (distinct_colors imageObj).

(** ** Sample inputs *)

(** A 2x1 image: opaque black, opaque white. *)
Definition black_white : Image :=
  mkImage RGBA 1 2 [[ [0; 0; 0; 255]; [255; 255; 255; 255] ]].

(** A 1x1 opaque black image. *)
Definition black_dot : Image := mkImage RGBA 1 1 [[ [0; 0; 0; 255] ]].

(** A 2x2 RGB image with three distinct colours. *)
Definition three_colors : Image :=
  mkImage RGB 2 2 [[ [3; 0; 0]; [1; 2; 3] ]; [ [1; 2; 3]; [0; 9; 9] ]].

(** A two-colour indexed image whose [tRNS] chunk holds one byte. *)
Definition trns_one_byte : PImage :=
  mkPImage 1 2 [[0; 1]] RGB [[10; 20; 30]; [40; 50; 60]] (Some [0]).

(** An eight-colour indexed image whose [tRNS] chunk holds eight bytes. *)
Definition trns_eight_bytes : PImage :=
  mkPImage 1 8 [[0; 1; 2; 3; 4; 5; 6; 7]] RGB
    [[0; 0; 0]; [1; 1; 1]; [2; 2; 2]; [3; 3; 3];
     [4; 4; 4]; [5; 5; 5]; [6; 6; 6]; [7; 7; 7]]
    (Some [0; 255; 255; 255; 255; 255; 255; 255]).

(** A 3x2 indexed image with two palette entries. *)
Definition small_indexed : PImage :=
  mkPImage 2 3 [[0; 1; 1]; [1; 0; 1]] RGBA
    [[0; 0; 0; 255]; [255; 0; 0; 255]] None.

(** A 257x1 RGB image of 257 distinct colours. *)
Definition many_colors : Image :=
  mkImage RGB 1 257
    [map (fun n => [Z.of_nat n mod 256; Z.of_nat n / 256; 0]) (seq 0 257)].

(** The float cast used where a closed example needs one. *)
Definition cast_zero (bytes : list Z) : Z := 0.

(** ** Reading the output back

    How a consumer of the written arrays reads them: the two indices of a
    packed byte, a palette lookup per index, and the pixels an index array
    stands for. *)

(** The two indices of each packed byte, low nibble first. *)
Definition unpack_nibbles (bytes : list Z) : list Z :=
  flat_map (fun byte => [Z.land byte 15; Z.shiftr byte 4]) bytes.

(** The 16-bit word the palette holds for every index. *)
Definition clut_lookup (clut : list Z) (indices : list (list Z))
    : list (list Z) :=
  map (map (fun i => nth (Z.to_nat i) clut 0)) indices.

(** The pixels of an indexed image: every index replaced by its palette
    entry. *)
Definition dequantize (q : PImage) : list (list pixel) :=
  map (map (fun i => nth (Z.to_nat i) (p_palette q) [])) (p_data q).

Definition is_nibble (x : Z) : Prop := 0 <= x < 16.

(** The colours of [three_colors] in another arrangement, as a 1x4 image. *)
Definition three_colors_row : Image :=
  mkImage RGB 1 4 [[ [0; 9; 9]; [3; 0; 0]; [1; 2; 3]; [3; 0; 0] ]].

(** * Properties *)

(** ** The colour encoder *)

Lemma u16_small (x : Z) : 0 <= x < 65536 -> u16 x = x.
Proof. intros H. unfold u16. apply Z.mod_small. exact H. Qed.

Lemma rescale5_exact (c : Z) : is_u8 c -> rescale5 c = (c * 31 + 127) / 255.
Proof.
  unfold is_u8, rescale5. intros H.
  rewrite (u16_small (c * 31)) by lia.
  rewrite u16_small by lia. reflexivity.
Qed.

Lemma rescale5_range (c : Z) : is_u8 c -> 0 <= (c * 31 + 127) / 255 <= 31.
Proof.
  unfold is_u8. intros H. split.
  - apply Z.div_pos; lia.
  - enough ((c * 31 + 127) / 255 < 32) by lia.
    apply Z.div_lt_upper_bound; lia.
Qed.

(** The rescale is the nearest 5-bit level: the error against the exact
    quotient [31 c / 255] is below one half. *)
Lemma rescale5_rounds (c : Z) :
  is_u8 c -> Z.abs (255 * ((c * 31 + 127) / 255) - 31 * c) <= 127.
Proof.
  intros H. pose proof (Z.div_mod (c * 31 + 127) 255 ltac:(lia)) as E.
  pose proof (Z.mod_pos_bound (c * 31 + 127) 255 ltac:(lia)) as B.
  lia.
Qed.

Lemma solid_word_exact (r g b : Z) :
  is_u8 r -> is_u8 g -> is_u8 b ->
  solid_word r g b =
  Z.lor (Z.lor ((r * 31 + 127) / 255) (Z.shiftl ((g * 31 + 127) / 255) 5))
        (Z.shiftl ((b * 31 + 127) / 255) 10).
Proof.
  intros Hr Hg Hb. unfold solid_word.
  rewrite !rescale5_exact by assumption.
  pose proof (rescale5_range g Hg). pose proof (rescale5_range b Hb).
  rewrite !u16_small; [reflexivity | |]; rewrite Z.shiftl_mul_pow2 by lia; lia.
Qed.

Lemma geb_true (a b : Z) : a >= b -> (a >=? b) = true.
Proof. intros H. rewrite Z.geb_leb. apply Z.leb_le. lia. Qed.

Lemma geb_false (a b : Z) : a < b -> (a >=? b) = false.
Proof. intros H. rewrite Z.geb_leb. apply Z.leb_gt. lia. Qed.

(** On an RGBA array [to16bpp] is [encode] cell by cell; without an alpha
    channel the alpha is 255. *)
Lemma to16bpp_pixel_rgba (r g b a : Z) (forceSTP useSTPBlack : bool) :
  to16bpp_pixel 4 [r; g; b; a] forceSTP useSTPBlack =
  encode r g b a forceSTP useSTPBlack.
Proof. reflexivity. Qed.

Lemma to16bpp_pixel_rgb (r g b : Z) (forceSTP useSTPBlack : bool) :
  to16bpp_pixel 3 [r; g; b] forceSTP useSTPBlack =
  encode r g b 255 forceSTP useSTPBlack.
Proof. reflexivity. Qed.

(** C1.  For a colour with alpha >= 224 whose solid word is 0x0000: with
    forceSemitransparent false, encode returns 0x0421 when
    useSemitransparentBlack is false and 0x8000 when it is true; with
    forceSemitransparent true no remap is applied and the result is the
    semitransparent word solid | 0x8000 = 0x8000, whatever the other flag. *)
Theorem encode_black_remap (r g b alpha : Z) (useSTPBlack : bool) :
  alpha >= UPPER_ALPHA_BOUND ->
  solid_word r g b = 0x0000 ->
  encode r g b alpha false false = 0x0421 /\
  encode r g b alpha false true = 0x8000 /\
  encode r g b alpha true useSTPBlack = Z.lor (solid_word r g b) 0x8000 /\
  encode r g b alpha true useSTPBlack = 0x8000.
Proof.
  intros Ha Hs. unfold UPPER_ALPHA_BOUND in Ha.
  unfold encode, semitransparent_word, copyto.
  unfold LOWER_ALPHA_BOUND, UPPER_ALPHA_BOUND, TRANSPARENT_COLOR.
  rewrite (geb_true alpha 32) by lia.
  rewrite (geb_true alpha 224) by lia.
  rewrite Hs. cbn. repeat split; reflexivity.
Qed.

Lemma encode_black_remap_witness :
  255 >= UPPER_ALPHA_BOUND /\ solid_word 0 0 0 = 0x0000 /\
  encode 0 0 0 255 false false = 0x0421 /\
  encode 0 0 0 255 false true = 0x8000 /\
  encode 0 0 0 255 true false = 0x8000.
Proof.
  assert (Ha : 255 >= UPPER_ALPHA_BOUND) by (unfold UPPER_ALPHA_BOUND; lia).
  assert (Hs : solid_word 0 0 0 = 0x0000) by reflexivity.
  destruct (encode_black_remap 0 0 0 255 false Ha Hs) as (H1 & H2 & _ & H4).
  repeat split; assumption.
Defined.

(** C5.  For alpha < 32 encode returns 0x0000 whatever the RGB value and
    the two flags; for 32 <= alpha < 224 it returns the semitransparent
    word solid | 0x8000, also when forceSemitransparent is false. *)
Theorem encode_alpha_bands (r g b alpha : Z) (forceSTP useSTPBlack : bool) :
  (alpha < LOWER_ALPHA_BOUND ->
   encode r g b alpha forceSTP useSTPBlack = 0x0000) /\
  (LOWER_ALPHA_BOUND <= alpha < UPPER_ALPHA_BOUND ->
   encode r g b alpha forceSTP useSTPBlack
   = Z.lor (solid_word r g b) 0x8000).
Proof.
  unfold LOWER_ALPHA_BOUND, UPPER_ALPHA_BOUND. split; intros Ha.
  - unfold encode, copyto, LOWER_ALPHA_BOUND, UPPER_ALPHA_BOUND.
    rewrite (geb_false alpha 32), (geb_false alpha 224) by lia.
    destruct forceSTP; reflexivity.
  - unfold encode, copyto, LOWER_ALPHA_BOUND, UPPER_ALPHA_BOUND.
    rewrite (geb_true alpha 32), (geb_false alpha 224) by lia.
    destruct forceSTP; reflexivity.
Qed.

Lemma encode_alpha_bands_witness :
  encode 200 100 50 31 true true = 0x0000 /\
  encode 200 100 50 32 false false = Z.lor (solid_word 200 100 50) 0x8000.
Proof.
  split.
  - apply (encode_alpha_bands 200 100 50 31 true true).
    unfold LOWER_ALPHA_BOUND. lia.
  - apply (encode_alpha_bands 200 100 50 32 false false).
    unfold LOWER_ALPHA_BOUND, UPPER_ALPHA_BOUND. lia.
Defined.

(** C6.  For a colour with 8-bit channels, alpha >= 224 and a nonzero
    solid word, encode with forceSemitransparent false returns exactly
    R5 | (G5 << 5) | (B5 << 10) with c5 = (c8 * 31 + 127) floor-divided by
    255.  No 16-bit operation wraps for any c8 in 0..255, c5 is a 5-bit
    value, and c5 is the nearest level to 31 c8 / 255 (a rounding: at
    c8 = 5 it gives 1 where the truncations 31 c8 / 255 and c8 >> 3 give 0). *)
Theorem encode_solid_exact (r g b alpha : Z) (useSTPBlack : bool) :
  is_u8 r -> is_u8 g -> is_u8 b ->
  alpha >= UPPER_ALPHA_BOUND ->
  solid_word r g b <> 0x0000 ->
  encode r g b alpha false useSTPBlack
  = Z.lor (Z.lor ((r * 31 + 127) / 255) (Z.shiftl ((g * 31 + 127) / 255) 5))
          (Z.shiftl ((b * 31 + 127) / 255) 10)
  /\ (forall c, is_u8 c ->
        rescale5 c = (c * 31 + 127) / 255 /\
        0 <= c * 31 + 127 < 65536 /\
        0 <= (c * 31 + 127) / 255 <= 31 /\
        Z.shiftl ((c * 31 + 127) / 255) 10 < 65536 /\
        Z.abs (255 * ((c * 31 + 127) / 255) - 31 * c) <= 127)
  /\ (rescale5 5 = 1 /\ (5 * 31) / 255 = 0 /\ Z.shiftr 5 3 = 0).
Proof.
  intros Hr Hg Hb Ha Hs. unfold UPPER_ALPHA_BOUND in Ha. split; [|split].
  - rewrite <- solid_word_exact by assumption.
    unfold encode, copyto, LOWER_ALPHA_BOUND, UPPER_ALPHA_BOUND,
      TRANSPARENT_COLOR.
    rewrite (geb_true alpha 32), (geb_true alpha 224) by lia.
    apply Z.eqb_neq in Hs. rewrite Hs. reflexivity.
  - intros c Hc. pose proof (rescale5_range c Hc) as Hrange.
    repeat split; try (unfold is_u8 in Hc; lia).
    + apply rescale5_exact, Hc.
    + rewrite Z.shiftl_mul_pow2 by lia. lia.
    + apply rescale5_rounds, Hc.
  - repeat split; reflexivity.
Qed.

Lemma encode_solid_exact_witness :
  encode 255 0 0 255 false false = 31 /\
  encode 8 130 255 224 false true = 0x7E01.
Proof.
  split.
  - assert (H := encode_solid_exact 255 0 0 255 false).
    destruct H as [H _]; [unfold is_u8; lia .. | | | exact H].
    + unfold UPPER_ALPHA_BOUND; lia.
    + vm_compute; discriminate.
  - assert (H := encode_solid_exact 8 130 255 224 true).
    destruct H as [H _]; [unfold is_u8; lia .. | | | exact H].
    + unfold UPPER_ALPHA_BOUND; lia.
    + vm_compute; discriminate.
Defined.

(** ** The exact quantizer *)

(** [lex_compare] is a total order on rows. *)

Lemma lex_compare_eq a b : lex_compare a b = Eq <-> a = b.
Proof.
  revert b. induction a as [|x a IH]; intros [|y b]; simpl;
    try (split; congruence).
  destruct (Z.compare_spec x y) as [->|Hlt|Hgt].
  - rewrite IH. split; congruence.
  - split; [discriminate | intros E; inversion E; lia].
  - split; [discriminate | intros E; inversion E; lia].
Qed.

Lemma lex_compare_refl a : lex_compare a a = Eq.
Proof. apply lex_compare_eq. reflexivity. Qed.

Lemma lex_compare_opp a b : lex_compare b a = CompOpp (lex_compare a b).
Proof.
  revert b. induction a as [|x a IH]; intros [|y b]; simpl; try reflexivity.
  rewrite (Z.compare_antisym x y).
  destruct (x ?= y); simpl; auto.
Qed.

Lemma lex_lt_trans a b c : lex_lt a b -> lex_lt b c -> lex_lt a c.
Proof.
  unfold lex_lt. revert b c.
  induction a as [|x a IH]; intros [|y b] [|z c]; simpl; try congruence.
  destruct (Z.compare_spec x y) as [->|Hxy|Hxy]; try discriminate.
  - destruct (Z.compare_spec y z) as [->|Hyz|Hyz]; try discriminate; auto.
    apply IH.
  - intros _.
    destruct (Z.compare_spec y z) as [->|Hyz|Hyz]; try discriminate;
      intros _.
    + apply Z.compare_lt_iff in Hxy. rewrite Hxy. reflexivity.
    + assert (E : (x ?= z) = Lt) by (apply Z.compare_lt_iff; lia).
      rewrite E. reflexivity.
Qed.

Lemma lex_le_lt_or_eq a b : lex_le a b <-> lex_lt a b \/ a = b.
Proof.
  unfold lex_le, lex_lt. rewrite <- lex_compare_eq.
  destruct (lex_compare a b); intuition congruence.
Qed.

Lemma lex_lt_irrefl a : ~ lex_lt a a.
Proof. unfold lex_lt. rewrite lex_compare_refl. discriminate. Qed.

#[global] Instance lex_le_trans : Transitive lex_le.
Proof.
  intros a b c. rewrite !lex_le_lt_or_eq.
  intros [H1| ->] [H2| ->]; eauto using lex_lt_trans.
Qed.

#[global] Instance lex_le_total : Total lex_le.
Proof.
  intros a b. unfold lex_le. rewrite (lex_compare_opp a b).
  destruct (lex_compare a b); simpl; intuition congruence.
Qed.

#[global] Instance lex_le_antisymm : AntiSymm (=) lex_le.
Proof.
  intros a b. rewrite (lex_le_lt_or_eq a b). unfold lex_le, lex_lt.
  rewrite (lex_compare_opp a b).
  intros [H| ->]; [rewrite H; simpl; congruence | reflexivity].
Qed.

#[global] Instance lex_lt_transitive : Transitive lex_lt.
Proof. intros a b c. apply lex_lt_trans. Qed.

Lemma lex_lt_rgba r g b a r' g' b' a' :
  lex_lt [r; g; b; a] [r'; g'; b'; a'] <->
  r < r' \/ (r = r' /\ (g < g' \/ (g = g' /\ (b < b' \/ (b = b' /\ a < a'))))).
Proof.
  unfold lex_lt. simpl.
  destruct (Z.compare_spec r r'); destruct (Z.compare_spec g g');
    destruct (Z.compare_spec b b'); destruct (Z.compare_spec a a');
    split; intros; try discriminate; try reflexivity; lia.
Qed.

(** Dropping repeated rows of a sorted array. *)

Lemma elem_of_keep_changes x p l :
  x ∈ p :: keep_changes p l <-> x ∈ p :: l.
Proof.
  revert p. induction l as [|y t IH]; intros p; simpl; [reflexivity|].
  destruct (decide (y = p)) as [->|Hne].
  - rewrite IH. rewrite !elem_of_cons. tauto.
  - rewrite (elem_of_cons (y :: keep_changes y t)), IH.
    rewrite !elem_of_cons. tauto.
Qed.

Lemma elem_of_drop_repeats x l : x ∈ drop_repeats l <-> x ∈ l.
Proof. destruct l; simpl; [reflexivity | apply elem_of_keep_changes]. Qed.

Lemma Sorted_keep_changes p l :
  Sorted lex_le (p :: l) -> Sorted lex_lt (p :: keep_changes p l).
Proof.
  revert p. induction l as [|x t IH]; intros p Hs; simpl.
  - repeat constructor.
  - apply Sorted_inv in Hs as [Hs Hhd]. apply HdRel_inv in Hhd.
    destruct (decide (x = p)) as [->|Hne]; [apply IH; assumption|].
    constructor; [apply IH; assumption|]. constructor.
    apply lex_le_lt_or_eq in Hhd as [?|?]; congruence.
Qed.

Lemma Sorted_drop_repeats l :
  Sorted lex_le l -> Sorted lex_lt (drop_repeats l).
Proof. destruct l; simpl; [constructor | apply Sorted_keep_changes]. Qed.

Lemma keep_changes_fixed p l :
  Sorted lex_lt (p :: l) -> keep_changes p l = l.
Proof.
  revert p. induction l as [|x t IH]; intros p Hs; simpl; [reflexivity|].
  apply Sorted_inv in Hs as [Hs Hhd]. apply HdRel_inv in Hhd.
  destruct (decide (x = p)) as [->|Hne].
  - exfalso. exact (lex_lt_irrefl _ Hhd).
  - f_equal. apply IH. assumption.
Qed.

Lemma StronglySorted_lex_lt_NoDup l : StronglySorted lex_lt l -> NoDup l.
Proof.
  induction 1 as [|x l Hs IH Hall]; constructor; [|assumption].
  intros Hin. rewrite Forall_forall in Hall.
  apply (lex_lt_irrefl x). apply Hall. exact Hin.
Qed.

Lemma Sorted_lex_lt_le l : Sorted lex_lt l -> Sorted lex_le l.
Proof.
  induction 1 as [|x l Hs IH Hhd]; constructor; [assumption|].
  destruct Hhd; constructor. apply lex_le_lt_or_eq. auto.
Qed.

(** [np.unique]: strictly ascending, the same rows as its input, no
    repeats. *)

Lemma np_unique_sorted ar : StronglySorted lex_lt (np_unique ar).
Proof.
  apply Sorted_StronglySorted; [apply _|].
  apply Sorted_drop_repeats. apply Sorted_merge_sort. apply _.
Qed.

Lemma elem_of_np_unique x ar : x ∈ np_unique ar <-> x ∈ ar.
Proof.
  unfold np_unique. rewrite elem_of_drop_repeats.
  rewrite (merge_sort_Permutation lex_le ar). reflexivity.
Qed.

Lemma np_unique_NoDup ar : NoDup (np_unique ar).
Proof. apply StronglySorted_lex_lt_NoDup, np_unique_sorted. Qed.

Lemma np_unique_length ar : length (np_unique ar) = length (remove_dups ar).
Proof.
  apply Permutation_length. apply NoDup_Permutation.
  - apply np_unique_NoDup.
  - apply NoDup_remove_dups.
  - intros x. rewrite elem_of_np_unique, elem_of_remove_dups. reflexivity.
Qed.

Lemma np_unique_fixed c : StronglySorted lex_lt c -> np_unique c = c.
Proof.
  intros Hs. apply StronglySorted_Sorted in Hs.
  assert (E : merge_sort lex_le c = c).
  { apply (Sorted_unique lex_le).
    - apply Sorted_merge_sort. apply _.
    - apply Sorted_lex_lt_le. assumption.
    - apply merge_sort_Permutation. }
  unfold np_unique. rewrite E.
  destruct c as [|p l]; simpl; [reflexivity|].
  f_equal. apply keep_changes_fixed. assumption.
Qed.

(** The inverse indices. *)

Lemma index_of_lookup x l : x ∈ l -> l !! index_of x l = Some x.
Proof.
  induction l as [|c t IH]; intros Hin; [inversion Hin|]. simpl.
  destruct (decide (x = c)) as [->|Hne]; [reflexivity|].
  apply elem_of_cons in Hin as [?|Hin]; [congruence|]. simpl. auto.
Qed.

Lemma index_of_lt x l : x ∈ l -> (index_of x l < length l)%nat.
Proof.
  intros Hin. apply lookup_lt_is_Some. rewrite index_of_lookup by assumption.
  eauto.
Qed.

Lemma index_of_NoDup l i x :
  NoDup l -> l !! i = Some x -> index_of x l = i.
Proof.
  intros Hnd Hl.
  assert (Hin : x ∈ l) by (apply list_elem_of_lookup; eauto).
  apply (NoDup_lookup l _ _ x Hnd); [apply index_of_lookup|]; assumption.
Qed.

Lemma index_of_seq l :
  NoDup l -> map (fun x => index_of x l) l = seq 0 (length l).
Proof.
  intros Hnd. apply list_eq. intros i.
  change (map (fun x => index_of x l) l) with ((fun x => index_of x l) <$> l).
  rewrite list_lookup_fmap.
  destruct (l !! i) as [x|] eqn:E; simpl.
  - rewrite (index_of_NoDup l i x Hnd E).
    symmetry. apply lookup_seq. split; [reflexivity|].
    apply lookup_lt_is_Some. eauto.
  - symmetry. apply lookup_seq_ge. apply lookup_ge_None in E. lia.
Qed.

Lemma quantizeImage_unfold (img : Image) (L : Z) :
  quantizeImage img L =
  if Z.of_nat (distinct_count img) >? L then
    Error (RuntimeError (distinct_count img) L)
  else if (256 <? distinct_count img)%nat then
    Error (ValueError_palette_size (distinct_count img))
  else
    Ok {| p_height       := height img;
          p_width        := width img;
          p_data         :=
            map (map (fun px =>
                        u8 (Z.of_nat
                              (index_of px (np_unique (concat (pixels img)))))))
                (pixels img);
          p_rawmode      := mode img;
          p_palette      := np_unique (concat (pixels img));
          p_transparency := None |}.
Proof.
  unfold quantizeImage, distinct_count, distinct_colors.
  rewrite np_unique_length. reflexivity.
Qed.

Lemma u8_index (px : pixel) (clut : list pixel) :
  (length clut <= 256)%nat -> px ∈ clut ->
  u8 (Z.of_nat (index_of px clut)) = Z.of_nat (index_of px clut).
Proof.
  intros Hlen Hin. pose proof (index_of_lt px clut Hin).
  unfold u8. apply Z.mod_small. lia.
Qed.

(** A limit that admits the image leaves one failure: a palette of more
    than 256 colours cannot be stored. *)
Lemma quantizeImage_over_capacity (img : Image) (L : Z) :
  Z.of_nat (distinct_count img) <= L ->
  (256 < distinct_count img)%nat ->
  quantizeImage img L = Error (ValueError_palette_size (distinct_count img)).
Proof.
  intros HK Hcap. rewrite quantizeImage_unfold.
  destruct (Z.gtb_spec (Z.of_nat (distinct_count img)) L); [lia|].
  apply Nat.ltb_lt in Hcap. rewrite Hcap. reflexivity.
Qed.

Lemma quantizeImage_within_capacity (img : Image) (L : Z) :
  Z.of_nat (distinct_count img) <= L ->
  (distinct_count img <= 256)%nat ->
  quantizeImage img L =
  Ok {| p_height       := height img;
        p_width        := width img;
        p_data         :=
          map (map (fun px =>
                      u8 (Z.of_nat
                            (index_of px (np_unique (concat (pixels img)))))))
              (pixels img);
        p_rawmode      := mode img;
        p_palette      := np_unique (concat (pixels img));
        p_transparency := None |}.
Proof.
  intros HK Hcap. rewrite quantizeImage_unfold.
  destruct (Z.gtb_spec (Z.of_nat (distinct_count img)) L); [lia|].
  destruct (Nat.ltb_spec 256 (distinct_count img)); [lia|]. reflexivity.
Qed.

(** C7, as stated, fails: a 257-colour image under the limit 1000 is within
    the limit, yet quantize does not succeed; the palette cannot hold 257
    entries. *)
Lemma quantize_over_capacity_counterexample :
  distinct_count many_colors = 257%nat /\
  Z.of_nat (distinct_count many_colors) <= 1000 /\
  quantizeImage many_colors 1000 = Error (ValueError_palette_size 257) /\
  ~ (exists out, quantizeImage many_colors 1000 = Ok out).
Proof.
  assert (HK : distinct_count many_colors = 257%nat)
    by (vm_compute; reflexivity).
  assert (Hq : quantizeImage many_colors 1000
               = Error (ValueError_palette_size 257))
    by (vm_compute; reflexivity).
  split; [exact HK|]. split; [rewrite HK; lia|]. split; [exact Hq|].
  intros [out Hout]. rewrite Hq in Hout. discriminate Hout.
Qed.

(** C7, amended.  quantize fails with the too-many-colours error,
    reporting the actual distinct-colour count K and the limit L, if and
    only if K > L.  Otherwise, when K is at most 256 (the capacity of a
    palette), it succeeds with a palette of exactly K colours, which are
    precisely the colours of the image, each once: none approximated,
    merged or dropped.  When K is within the limit but above 256 it fails
    with the invalid-palette-size error; it has no other failure. *)
Theorem quantize_too_many_colors (img : Image) (L : Z) :
  (quantizeImage img L = Error (RuntimeError (distinct_count img) L)
   <-> Z.of_nat (distinct_count img) > L) /\
  (forall e, quantizeImage img L = Error e ->
             e = RuntimeError (distinct_count img) L \/
             (e = ValueError_palette_size (distinct_count img) /\
              Z.of_nat (distinct_count img) <= L /\
              (256 < distinct_count img)%nat)) /\
  (Z.of_nat (distinct_count img) <= L ->
   (256 < distinct_count img)%nat ->
   quantizeImage img L
   = Error (ValueError_palette_size (distinct_count img))) /\
  (Z.of_nat (distinct_count img) <= L ->
   (distinct_count img <= 256)%nat ->
   exists out,
     quantizeImage img L = Ok out /\
     length (p_palette out) = distinct_count img /\
     NoDup (p_palette out) /\
     (forall c, c ∈ p_palette out <-> c ∈ concat (pixels img))).
Proof.
  split; [|split; [|split]].
  - rewrite quantizeImage_unfold.
    destruct (Z.gtb_spec (Z.of_nat (distinct_count img)) L) as [Hgt|Hle].
    + split; [intros _; lia | reflexivity].
    + split; [|lia].
      destruct (256 <? distinct_count img)%nat; discriminate.
  - intros e. rewrite quantizeImage_unfold.
    destruct (Z.gtb_spec (Z.of_nat (distinct_count img)) L) as [Hgt|Hle].
    + intros He. left. congruence.
    + destruct (Nat.ltb_spec 256 (distinct_count img)) as [Hcap|Hcap].
      * intros He. right. split; [congruence|]. split; assumption.
      * discriminate.
  - apply quantizeImage_over_capacity.
  - intros HK Hcap. eexists.
    split; [apply quantizeImage_within_capacity; assumption|].
    cbn [p_palette]. split; [|split].
    + unfold distinct_count, distinct_colors. apply np_unique_length.
    + apply np_unique_NoDup.
    + intros c. apply elem_of_np_unique.
Qed.

Lemma quantize_too_many_colors_witness :
  quantizeImage three_colors 2 = Error (RuntimeError 3 2) /\
  quantizeImage many_colors 1000 = Error (ValueError_palette_size 257) /\
  exists out, quantizeImage three_colors 3 = Ok out /\
              length (p_palette out) = 3%nat.
Proof.
  split; [|split].
  - apply (proj1 (quantize_too_many_colors three_colors 2)).
    vm_compute. reflexivity.
  - apply (proj1 (proj2 (proj2 (quantize_too_many_colors many_colors 1000)))).
    + vm_compute. discriminate.
    + vm_compute. lia.
  - destruct (proj2 (proj2 (proj2 (quantize_too_many_colors three_colors 3))))
      as (out & Hq & Hlen & _).
    + vm_compute. discriminate.
    + vm_compute. lia.
    + exists out. split; [exact Hq | exact Hlen].
Defined.

(** C8.  quantize returns as palette the distinct colours of the image in
    strictly ascending lexicographic byte order (R first, then G, B, A)
    and gives every pixel the position of its colour in that sequence;
    quantizing the palette's own colours as a 1xN image returns the same
    palette and the indices 0..N-1 in order.  The image is within the
    limit and within the palette capacity of 256 colours. *)
Theorem quantize_sorted_palette (img : Image) (L : Z) :
  Z.of_nat (distinct_count img) <= L ->
  (distinct_count img <= 256)%nat ->
  exists out,
    quantizeImage img L = Ok out /\
    StronglySorted lex_lt (p_palette out) /\
    (forall c, c ∈ p_palette out <-> c ∈ concat (pixels img)) /\
    p_data out
    = map (map (fun px => Z.of_nat (index_of px (p_palette out))))
          (pixels img) /\
    (forall px, px ∈ concat (pixels img) ->
                p_palette out !! index_of px (p_palette out) = Some px) /\
    quantizeImage
      (mkImage (mode img) 1 (length (p_palette out)) [p_palette out]) L
    = Ok (mkPImage 1 (length (p_palette out))
            [map Z.of_nat (seq 0 (length (p_palette out)))]
            (mode img) (p_palette out) None) /\
    (forall r g b a r' g' b' a',
        lex_lt [r; g; b; a] [r'; g'; b'; a'] <->
        r < r' \/
        (r = r' /\
         (g < g' \/ (g = g' /\ (b < b' \/ (b = b' /\ a < a')))))).
Proof.
  intros HK HL.
  assert (Hlen : length (np_unique (concat (pixels img)))
                 = distinct_count img).
  { unfold distinct_count, distinct_colors. apply np_unique_length. }
  assert (Hgt : (Z.of_nat (distinct_count img) >? L) = false).
  { destruct (Z.gtb_spec (Z.of_nat (distinct_count img)) L);
      [lia | reflexivity]. }
  assert (Hcap : (256 <? distinct_count img)%nat = false).
  { apply Nat.ltb_ge. assumption. }
  eexists.
  split; [rewrite quantizeImage_unfold, Hgt, Hcap; reflexivity|].
  cbn [p_palette p_data].
  set (clut := np_unique (concat (pixels img))) in *.
  assert (Hsorted : StronglySorted lex_lt clut) by apply np_unique_sorted.
  split; [exact Hsorted|].
  split; [intros c; apply elem_of_np_unique|].
  split; [|split; [|split]].
  - apply map_ext_in. intros row Hrow. apply map_ext_in. intros px Hpx.
    apply u8_index; [lia|]. apply elem_of_np_unique.
    apply list_elem_of_In, in_concat. eauto.
  - intros px Hpx. apply index_of_lookup, elem_of_np_unique, Hpx.
  - rewrite quantizeImage_unfold.
    assert (Hfix : np_unique (concat [clut]) = clut).
    { cbn [concat]. rewrite app_nil_r. apply np_unique_fixed, Hsorted. }
    assert (Hcount : distinct_count
                       (mkImage (mode img) 1 (length clut) [clut])
                     = distinct_count img).
    { unfold distinct_count at 1. unfold distinct_colors.
      rewrite <- np_unique_length. cbn [pixels]. rewrite Hfix. exact Hlen. }
    rewrite Hcount, Hgt, Hcap. cbn [pixels height width mode map].
    rewrite Hfix. do 2 f_equal.
    rewrite <- (index_of_seq clut) by (apply np_unique_NoDup).
    rewrite map_map. f_equal. apply map_ext_in. intros px Hpx.
    apply u8_index; [lia|]. apply list_elem_of_In, Hpx.
  - apply lex_lt_rgba.
Qed.

Lemma quantize_sorted_palette_witness :
  exists out,
    quantizeImage three_colors 16 = Ok out /\
    p_palette out = [[0; 9; 9]; [1; 2; 3]; [3; 0; 0]] /\
    p_data out = [[2; 1]; [1; 0]].
Proof.
  destruct (quantize_sorted_palette three_colors 16)
    as (out & Hq & _).
  - vm_compute. discriminate.
  - vm_compute. lia.
  - exists out. split; [exact Hq|].
    vm_compute in Hq. inversion Hq. split; reflexivity.
Defined.

(** ** The palette extractor *)

Lemma getImagePalette_no_transparency (f64_to_u8 : list Z -> Z)
    (img : PImage) :
  p_transparency img = None ->
  getImagePalette f64_to_u8 img = Ok (getpalette_RGBA img).
Proof. intros H. unfold getImagePalette. rewrite H. reflexivity. Qed.

(** Whenever the padded transparency bytes are not a multiple of eight
    long, [np.frombuffer] raises. *)
Lemma getImagePalette_buffer_size (f64_to_u8 : list Z -> Z)
    (img : PImage) (alpha : list Z) :
  p_transparency img = Some alpha ->
  (length (ljust alpha (length (getpalette_RGBA img)) 0xff) mod 8 <> 0)%nat ->
  getImagePalette f64_to_u8 img =
  Error (ValueError_buffer_size
           (length (ljust alpha (length (getpalette_RGBA img)) 0xff))).
Proof.
  intros Ht Hmod. unfold getImagePalette, frombuffer. rewrite Ht.
  apply Nat.eqb_neq in Hmod. rewrite Hmod. reflexivity.
Qed.

(** C4.  The claim: the N transparency bytes overwrite the alpha of the
    first N palette entries, one unsigned byte each, and later entries get
    alpha 0xFF.  The code reads the bytes as 64-bit floats instead: on a
    two-entry palette with one transparency byte it raises, where the
    bytewise merge gives alphas 0 and 0xFF; on an eight-entry palette with
    eight transparency bytes it stores one and the same value in all eight
    alphas, whatever the float cast, where the bytewise merge gives
    0, 0xFF, ..., 0xFF. *)
Theorem getImagePalette_reads_floats (f64_to_u8 : list Z -> Z) :
  getImagePalette f64_to_u8 trns_one_byte
  = Error (ValueError_buffer_size 2) /\
  getImagePalette_bytewise trns_one_byte
  = [[10; 20; 30; 0]; [40; 50; 60; 0xff]] /\
  (exists v,
     getImagePalette f64_to_u8 trns_eight_bytes
     = Ok (map (fun px => set_alpha px v)
               (getpalette_RGBA trns_eight_bytes))) /\
  getImagePalette f64_to_u8 trns_eight_bytes
  <> Ok (getImagePalette_bytewise trns_eight_bytes).
Proof.
  split; [reflexivity|]. split; [reflexivity|]. split.
  - eexists. reflexivity.
  - intros H. vm_compute in H.
    injection H as H0 H1 _. rewrite H0 in H1. discriminate H1.
Qed.

(** ** The indexed packer *)

Lemma c__zeros a h n :
  length a = h -> c_ a (zeros h n) = map (fun r => r ++ repeat 0 n) a.
Proof.
  revert h. induction a as [|r a IH]; intros h Hlen; simpl in *.
  - destruct h; reflexivity.
  - subst h. simpl. f_equal. apply IH. reflexivity.
Qed.

Lemma pad_even_length row : Nat.even (length (pad_even row)) = true.
Proof.
  unfold pad_even. destruct (Nat.odd (length row)) eqn:E.
  - rewrite length_app. simpl. rewrite Nat.add_1_r, Nat.even_succ. exact E.
  - rewrite <- Nat.negb_odd, E. reflexivity.
Qed.

Lemma pad_odd_width_rows h w a :
  has_shape h w a ->
  pad_odd_width h (a, w) = (map pad_even a, if Nat.odd w then S w else w).
Proof.
  intros [Hh Hw]. unfold pad_odd_width.
  destruct (Nat.odd w) eqn:E.
  - rewrite (c__zeros a h 1 Hh). f_equal.
    apply map_ext_in. intros r Hr. rewrite Forall_forall in Hw.
    unfold pad_even. rewrite (Hw r), E by (apply list_elem_of_In; exact Hr).
    reflexivity.
  - f_equal. rewrite <- (map_id a) at 1.
    apply map_ext_in. intros r Hr. rewrite Forall_forall in Hw.
    unfold pad_even. rewrite (Hw r), E by (apply list_elem_of_In; exact Hr).
    reflexivity.
Qed.

Lemma has_shape_pad_even h w a :
  has_shape h w a ->
  has_shape h (if Nat.odd w then S w else w) (map pad_even a).
Proof.
  intros [Hh Hw]. split; [rewrite length_map; exact Hh|].
  apply Forall_forall. intros r Hr. apply list_elem_of_In, in_map_iff in Hr.
  destruct Hr as (r0 & <- & Hr0). rewrite Forall_forall in Hw.
  apply list_elem_of_In in Hr0. specialize (Hw r0 Hr0).
  unfold pad_even. rewrite Hw. destruct (Nat.odd w).
  - rewrite length_app, Hw. simpl. lia.
  - exact Hw.
Qed.

Lemma slice_lengths row :
  length (slice_even row) = Nat.div2 (S (length row)) /\
  length (slice_odd row) = Nat.div2 (length row).
Proof.
  enough (H : (length (slice_even row) = Nat.div2 (S (length row)) /\
               length (slice_odd row) = Nat.div2 (length row)) /\
              forall x, length (slice_even (x :: row))
                        = Nat.div2 (S (S (length row))) /\
                        length (slice_odd (x :: row))
                        = Nat.div2 (S (length row))) by apply H.
  induction row as [|y t [[IHe IHo] IHx]].
  - split; [split; reflexivity | intros x; split; reflexivity].
  - split; [apply IHx|]. intros x. simpl slice_even. simpl slice_odd.
    simpl length. rewrite IHe, IHo. split; reflexivity.
Qed.

Lemma pack_nibbles_length row :
  length (pack_nibbles row) = Nat.div2 (length row).
Proof.
  unfold pack_nibbles. rewrite length_zip_with.
  destruct (slice_lengths row) as [-> ->].
  assert (Nat.div2 (length row) <= Nat.div2 (S (length row)))%nat; [|lia].
  rewrite !Nat.div2_div. apply Nat.Div0.div_le_mono. lia.
Qed.

Lemma has_shape_pack h w a :
  has_shape h w a -> has_shape h (Nat.div2 w) (map pack_nibbles a).
Proof.
  intros [Hh Hw]. split; [rewrite length_map; exact Hh|].
  apply Forall_forall. intros r Hr. apply list_elem_of_In, in_map_iff in Hr.
  destruct Hr as (r0 & <- & Hr0). rewrite Forall_forall in Hw.
  apply list_elem_of_In in Hr0. rewrite pack_nibbles_length, (Hw r0 Hr0).
  reflexivity.
Qed.

Lemma c__one_row (r : list Z) (n : nat) :
  c_ [r] (zeros 1 n) = [r ++ repeat 0 n].
Proof. reflexivity. Qed.

Lemma clut_padding (palette : list pixel) fs us :
  (length palette <= 256)%nat ->
  (let clut := to16bpp {| shape2 := 4; cells := [palette] |} fs us in
   let padAmount :=
     (if (length palette <=? 16)%nat then 16 else 256)
     - Z.of_nat (length palette) in
   if padAmount =? 0 then Ok clut
   else if padAmount <? 0 then
     Error (ValueError_negative_dimensions padAmount)
   else Ok (c_ clut (zeros 1 (Z.to_nat padAmount))))
  = Ok [padded_clut palette fs us].
Proof.
  intros Hle. cbv zeta. unfold to16bpp, padded_clut. cbn [cells shape2 map].
  unfold pixel in *.
  destruct (Nat.leb_spec (length palette) 16) as [H16|H16].
  - destruct (Z.eqb_spec (16 - Z.of_nat (length palette)) 0) as [E|E].
    + replace (16 - length palette)%nat with 0%nat by lia.
      cbn [repeat]. rewrite app_nil_r. reflexivity.
    + destruct (Z.ltb_spec (16 - Z.of_nat (length palette)) 0); [lia|].
      rewrite c__one_row.
      replace (Z.to_nat (16 - Z.of_nat (length palette)))
        with (16 - length palette)%nat by lia.
      reflexivity.
  - destruct (Z.eqb_spec (256 - Z.of_nat (length palette)) 0) as [E|E].
    + replace (256 - length palette)%nat with 0%nat by lia.
      cbn [repeat]. rewrite app_nil_r. reflexivity.
    + destruct (Z.ltb_spec (256 - Z.of_nat (length palette)) 0); [lia|].
      rewrite c__one_row.
      replace (Z.to_nat (256 - Z.of_nat (length palette)))
        with (256 - length palette)%nat by lia.
      reflexivity.
Qed.

Lemma convertIndexedImage_clut f img fs us palette :
  getImagePalette f img = Ok palette ->
  (length palette <= 256)%nat ->
  exists image,
    convertIndexedImage f img fs us = Ok (image, [padded_clut palette fs us]).
Proof.
  intros Hpal Hle. unfold convertIndexedImage. rewrite Hpal. cbn [bind].
  pose proof (clut_padding palette fs us Hle) as Hclut.
  cbv zeta in Hclut |- *. rewrite Hclut. cbn [bind]. eauto.
Qed.

Lemma convertIndexedImage_image f img fs us palette :
  getImagePalette f img = Ok palette ->
  (length palette <= 256)%nat ->
  has_shape (p_height img) (p_width img) (p_data img) ->
  convertIndexedImage f img fs us =
  Ok (if (length palette <=? 16)%nat then nibble_packed (p_data img)
      else one_byte_per_pixel (p_data img),
      [padded_clut palette fs us]).
Proof.
  intros Hpal Hle Hshape. unfold convertIndexedImage. rewrite Hpal. cbn [bind].
  pose proof (clut_padding palette fs us Hle) as Hclut.
  cbv zeta in Hclut |- *. rewrite Hclut. cbn [bind].
  rewrite (pad_odd_width_rows _ _ _ Hshape). cbn [fst snd].
  destruct (length palette <=? 16)%nat; [|reflexivity].
  rewrite (pad_odd_width_rows (p_height img)
             (Nat.div2 (if Nat.odd (p_width img)
                        then S (p_width img) else p_width img))).
  - cbn [fst]. unfold nibble_packed. rewrite !map_map. reflexivity.
  - apply has_shape_pack, has_shape_pad_even, Hshape.
Qed.

(** A palette of more than 256 entries cannot be padded: [np.zeros] is
    asked for a negative width. *)
Lemma convertIndexedImage_too_many (f : list Z -> Z) (img : PImage)
    (fs us : bool) (palette : list pixel) :
  getImagePalette f img = Ok palette ->
  (256 < length palette)%nat ->
  convertIndexedImage f img fs us =
  Error (ValueError_negative_dimensions (256 - Z.of_nat (length palette))).
Proof.
  intros Hpal Hgt. unfold convertIndexedImage. rewrite Hpal. cbn [bind].
  cbv zeta. unfold pixel in *.
  destruct (Nat.leb_spec (length palette) 16) as [H16|H16]; [lia|].
  destruct (Z.eqb_spec (256 - Z.of_nat (length palette)) 0); [lia|].
  destruct (Z.ltb_spec (256 - Z.of_nat (length palette)) 0); [|lia].
  reflexivity.
Qed.

Lemma padded_clut_length (palette : list pixel) (fs us : bool) :
  (length palette <= 256)%nat ->
  length (padded_clut palette fs us)
  = (if (length palette <=? 16)%nat then 16 else 256)%nat.
Proof.
  intros Hle. unfold padded_clut.
  rewrite length_app, length_map, repeat_length. unfold pixel in *.
  destruct (Nat.leb_spec (length palette) 16); lia.
Qed.

Lemma has_shape_map {A B : Type} (f : A -> B) (h w : nat)
    (a : list (list A)) :
  has_shape h w a -> has_shape h w (map (map f) a).
Proof.
  intros [Hh Hw]. split; [rewrite length_map; exact Hh|]. clear Hh.
  induction Hw as [|r a Hr _ IH]; simpl; constructor.
  - rewrite length_map. exact Hr.
  - exact IH.
Qed.

Lemma nibble_packed_even (indices : list (list Z)) :
  Forall (fun row => Nat.even (length row) = true) (nibble_packed indices).
Proof.
  unfold nibble_packed. induction indices as [|r t IH]; simpl; constructor.
  - apply pad_even_length.
  - exact IH.
Qed.

Lemma one_byte_per_pixel_even (indices : list (list Z)) :
  Forall (fun row => Nat.even (length row) = true)
         (one_byte_per_pixel indices).
Proof.
  unfold one_byte_per_pixel. induction indices as [|r t IH]; simpl;
    constructor.
  - apply pad_even_length.
  - exact IH.
Qed.

(** [main] at an indexed depth, on a well-shaped image within the colour
    limit: packing is decided by the number of palette entries. *)
Lemma main_indexed (f : list Z -> Z) (args : Namespace) :
  bpp args <> Bpp16 ->
  clutOutput args = true ->
  has_shape (height (input args)) (width (input args))
            (pixels (input args)) ->
  Z.of_nat (distinct_count (input args)) <= 2 ^ bpp_value (bpp args) ->
  exists q,
    quantizeImage (input args) (2 ^ bpp_value (bpp args)) = Ok q /\
    length (p_palette q) = distinct_count (input args) /\
    main f args =
    Ok (if (distinct_count (input args) <=? 16)%nat
        then nibble_packed (p_data q)
        else one_byte_per_pixel (p_data q),
        Some [padded_clut (getpalette_RGBA q) (force_stp args)
                          (stp_black args)]).
Proof.
  intros Hbpp Hclut Hshape HK.
  assert (H256 : 2 ^ bpp_value (bpp args) <= 256).
  { destruct (bpp args); [cbn; lia | cbn; lia | congruence]. }
  assert (Hb : (bpp_value (bpp args) =? 16) = false).
  { destruct (bpp args); [reflexivity | reflexivity | congruence]. }
  assert (Hcap : (distinct_count (input args) <= 256)%nat) by lia.
  pose proof (quantizeImage_within_capacity (input args)
                (2 ^ bpp_value (bpp args)) HK Hcap) as Hq.
  eexists. split; [exact Hq|].
  cbn [p_palette p_data].
  assert (Hlen : length (np_unique (concat (pixels (input args))))
                 = distinct_count (input args)).
  { unfold distinct_count, distinct_colors. apply np_unique_length. }
  split; [exact Hlen|].
  unfold main. rewrite Hb, Hclut, Hq. cbn [negb bind].
  match goal with
  | |- context [convertIndexedImage f ?q ?fs ?us] =>
      rewrite (convertIndexedImage_image f q fs us (getpalette_RGBA q))
  end.
  - cbn [bind fst snd p_data]. unfold getpalette_RGBA. cbn [p_palette].
    rewrite length_map, Hlen. reflexivity.
  - apply getImagePalette_no_transparency. reflexivity.
  - unfold getpalette_RGBA. cbn [p_palette p_rawmode].
    rewrite length_map, Hlen. lia.
  - cbn [p_height p_width p_data]. apply has_shape_map, Hshape.
Qed.

(** C9.  The palette emitted by an indexed conversion holds exactly 16
    entries when the source palette has at most 16 colours and exactly 256
    otherwise: the encoded colours first, then zero entries only. *)
Theorem clut_has_16_or_256_entries (f : list Z -> Z) (img : PImage)
    (forceSTP useSTPBlack : bool) (palette : list pixel) :
  getImagePalette f img = Ok palette ->
  (length palette <= 256)%nat ->
  exists image clut,
    convertIndexedImage f img forceSTP useSTPBlack = Ok (image, [clut]) /\
    length clut = (if (length palette <=? 16)%nat then 16 else 256)%nat /\
    take (length palette) clut
    = map (fun px => to16bpp_pixel 4 px forceSTP useSTPBlack) palette /\
    drop (length palette) clut
    = repeat 0 (length clut - length palette)%nat.
Proof.
  intros Hpal Hle.
  destruct (convertIndexedImage_clut f img forceSTP useSTPBlack palette
              Hpal Hle) as [image Himage].
  exists image, (padded_clut palette forceSTP useSTPBlack).
  split; [exact Himage|].
  rewrite padded_clut_length by exact Hle.
  split; [reflexivity|]. unfold padded_clut. split.
  - apply take_app_length'. rewrite length_map. reflexivity.
  - rewrite drop_app_length' by (rewrite length_map; reflexivity).
    reflexivity.
Qed.

Lemma clut_has_16_or_256_entries_witness :
  exists image,
    convertIndexedImage cast_zero small_indexed false false
    = Ok (image, [[0x0421; 31; 0; 0; 0; 0; 0; 0; 0; 0; 0; 0; 0; 0; 0; 0]]).
Proof.
  destruct (clut_has_16_or_256_entries cast_zero small_indexed false false
              [[0; 0; 0; 255]; [255; 0; 0; 255]])
    as (image & clut & Hc & _).
  - reflexivity.
  - simpl. lia.
  - exists image. rewrite Hc. vm_compute in Hc. inversion Hc. reflexivity.
Defined.

(** C10.  Every row of the image emitted by an indexed conversion has an
    even byte length: an index buffer of odd width gets one zero column
    before packing, and a nibble-packed row of odd byte width gets one
    zero byte. *)
Theorem packed_rows_are_even (f : list Z -> Z) (img : PImage)
    (forceSTP useSTPBlack : bool) (palette : list pixel) :
  getImagePalette f img = Ok palette ->
  (length palette <= 256)%nat ->
  has_shape (p_height img) (p_width img) (p_data img) ->
  exists image clut,
    convertIndexedImage f img forceSTP useSTPBlack = Ok (image, clut) /\
    Forall (fun row => Nat.even (length row) = true) image /\
    image = (if (length palette <=? 16)%nat
             then map (fun row => pad_even (pack_nibbles (pad_even row)))
                      (p_data img)
             else map pad_even (p_data img)).
Proof.
  intros Hpal Hle Hshape. do 2 eexists.
  split; [apply (convertIndexedImage_image f img _ _ palette); assumption|].
  split; [|reflexivity].
  destruct (length palette <=? 16)%nat;
    [apply nibble_packed_even | apply one_byte_per_pixel_even].
Qed.

Lemma packed_rows_are_even_witness :
  exists clut,
    convertIndexedImage cast_zero small_indexed false false
    = Ok ([[16; 1]; [1; 1]], clut).
Proof.
  destruct (packed_rows_are_even cast_zero small_indexed false false
              [[0; 0; 0; 255]; [255; 0; 0; 255]])
    as (image & clut & Hc & _ & Himage).
  - reflexivity.
  - simpl. lia.
  - split; [reflexivity|]. repeat constructor.
  - exists clut. rewrite Hc, Himage. reflexivity.
Defined.

(** ** The converter *)

(** At depth 8 an image with at most 16 distinct colours goes through the
    packing branch of [convertIndexedImage]: its palette has 16 entries
    and its rows are packed two indices per byte. *)
Lemma depth8_small_palette_is_packed (f : list Z -> Z) (img : Image)
    (forceSTP stpBlack : bool) :
  has_shape (height img) (width img) (pixels img) ->
  (distinct_count img <= 16)%nat ->
  exists q clut,
    quantizeImage img 256 = Ok q /\
    main f (mkArgs Bpp8 forceSTP stpBlack img true)
    = Ok (nibble_packed (p_data q), Some [clut]) /\
    clut = padded_clut (getpalette_RGBA q) forceSTP stpBlack /\
    length clut = 16%nat.
Proof.
  intros Hshape HK.
  destruct (main_indexed f (mkArgs Bpp8 forceSTP stpBlack img true))
    as (q & Hq & Hlen & Hmain).
  - discriminate.
  - reflexivity.
  - exact Hshape.
  - cbn. lia.
  - cbn in Hq, Hlen, Hmain |- *.
    apply Nat.leb_le in HK. rewrite HK in Hmain.
    exists q, (padded_clut (getpalette_RGBA q) forceSTP stpBlack).
    split; [exact Hq|]. split; [exact Hmain|]. split; [reflexivity|].
    rewrite padded_clut_length; unfold getpalette_RGBA;
      rewrite length_map, Hlen.
    + rewrite HK. reflexivity.
    + apply Nat.leb_le in HK. lia.
Qed.

(** C2.  The claim: at depth 8 an image with at most 16 distinct colours
    is emitted one byte per pixel, with a palette padded to 16 entries.
    The code decides the packing by the palette size and never sees the
    requested depth: the black-and-white 2x1 image at depth 8 is written
    as the packed byte 0x10 and one padding byte, the very output of
    depth 4, where one byte per pixel is 0x00 0x01.  The palette has the
    16 entries of the claim. *)
Theorem depth8_two_colors_is_nibble_packed (f : list Z -> Z) :
  quantizeImage black_white 256
  = Ok (mkPImage 1 2 [[0; 1]] RGBA
          [[0; 0; 0; 255]; [255; 255; 255; 255]] None) /\
  main f (mkArgs Bpp8 false false black_white true)
  = Ok ([[0x10; 0]],
        Some [[0x0421; 0x7FFF; 0; 0; 0; 0; 0; 0; 0; 0; 0; 0; 0; 0; 0; 0]]) /\
  main f (mkArgs Bpp8 false false black_white true)
  = main f (mkArgs Bpp4 false false black_white true) /\
  one_byte_per_pixel [[0; 1]] = [[0; 1]] /\
  [[0x10; 0]] <> one_byte_per_pixel [[0; 1]].
Proof.
  split; [vm_compute; reflexivity|].
  split; [vm_compute; reflexivity|].
  split; [vm_compute; reflexivity|].
  split; [reflexivity|].
  vm_compute. discriminate.
Qed.

(** C3.  The claim: at depth 16 the encoder runs over every pixel with
    both requested flags.  The code passes [force_stp] only: whatever
    [stp_black] is, the output is that of the encoder with
    useSemitransparentBlack false.  On an opaque black pixel with
    [--stp-black] it writes 0x0421, where the encoder with both flags
    gives 0x8000. *)
Theorem direct16_ignores_stp_black (f : list Z -> Z) :
  (forall forceSTP stpBlack img clutGiven,
      main f (mkArgs Bpp16 forceSTP stpBlack img clutGiven)
      = Ok (direct16_both_flags img forceSTP false, None)) /\
  main f (mkArgs Bpp16 false true black_dot false) = Ok ([[0x0421]], None) /\
  direct16_both_flags black_dot false true = [[0x8000]].
Proof.
  split; [intros; reflexivity|]. split; reflexivity.
Qed.

(** * Further properties *)

(** ** Encoded words *)

Lemma lor_u16 (a b : Z) :
  0 <= a < 65536 -> 0 <= b < 65536 -> 0 <= Z.lor a b < 65536.
Proof.
  intros Ha Hb. split; [apply Z.lor_nonneg; lia|].
  destruct (Z.eq_dec (Z.lor a b) 0) as [E|E]; [lia|].
  assert (Hpos : 0 < Z.lor a b).
  { assert (0 <= Z.lor a b) by (apply Z.lor_nonneg; lia). lia. }
  change 65536 with (2 ^ 16). apply Z.log2_lt_pow2; [exact Hpos|].
  rewrite Z.log2_lor by lia.
  assert (La : Z.log2 a < 16).
  { destruct (Z.eq_dec a 0) as [->|]; [cbn; lia|].
    apply Z.log2_lt_pow2; [lia | change (2 ^ 16) with 65536; lia]. }
  assert (Lb : Z.log2 b < 16).
  { destruct (Z.eq_dec b 0) as [->|]; [cbn; lia|].
    apply Z.log2_lt_pow2; [lia | change (2 ^ 16) with 65536; lia]. }
  lia.
Qed.

Lemma u16_range (x : Z) : 0 <= u16 x < 65536.
Proof. unfold u16. apply Z.mod_pos_bound. lia. Qed.

Lemma rescale5_u16 (c : Z) : 0 <= rescale5 c < 65536.
Proof.
  unfold rescale5. pose proof (u16_range (u16 (c * 31) + 127)) as H.
  split; [apply Z.div_pos; lia|].
  apply Z.div_lt_upper_bound; lia.
Qed.

Lemma solid_word_u16 (r g b : Z) : 0 <= solid_word r g b < 65536.
Proof.
  unfold solid_word. apply lor_u16; [apply lor_u16|];
    auto using rescale5_u16, u16_range.
Qed.

Lemma semitransparent_word_nonzero (r g b : Z) :
  semitransparent_word r g b <> 0.
Proof.
  unfold semitransparent_word. intros H.
  apply Z.lor_eq_0_iff in H as [_ H]. discriminate H.
Qed.

(** X1.  Whatever the channel values, alpha and flags, the encoded word
    fits 16 bits. *)
Theorem encode_is_uint16 (r g b alpha : Z) (forceSTP useSTPBlack : bool) :
  0 <= encode r g b alpha forceSTP useSTPBlack < 65536.
Proof.
  pose proof (solid_word_u16 r g b) as Hs.
  assert (Hst : 0 <= semitransparent_word r g b < 65536).
  { unfold semitransparent_word. apply lor_u16; [exact Hs|].
    change (Z.shiftl 1 15) with 32768. lia. }
  unfold encode, copyto, TRANSPARENT_COLOR, STP_BLACK_COLOR, BLACK_COLOR.
  destruct forceSTP, useSTPBlack, (alpha >=? LOWER_ALPHA_BOUND),
    (alpha >=? UPPER_ALPHA_BOUND), (solid_word r g b =? 0);
    cbn [negb andb]; lia.
Qed.

Lemma encode_visible (r g b alpha : Z) (forceSTP useSTPBlack : bool) :
  alpha >= LOWER_ALPHA_BOUND ->
  encode r g b alpha forceSTP useSTPBlack <> 0x0000.
Proof.
  pose proof (semitransparent_word_nonzero r g b) as Hst.
  unfold encode, copyto, LOWER_ALPHA_BOUND, UPPER_ALPHA_BOUND,
    TRANSPARENT_COLOR, STP_BLACK_COLOR, BLACK_COLOR.
  intros Hlo. rewrite (geb_true alpha 32) by lia.
  destruct forceSTP; cbn [negb]; [exact Hst|].
  destruct (Z_lt_ge_dec alpha 224) as [Hhi|Hhi].
  - rewrite (geb_false alpha 224) by lia. exact Hst.
  - rewrite (geb_true alpha 224) by lia. cbn [andb].
    destruct (Z.eqb_spec (solid_word r g b) 0) as [E|E].
    + destruct useSTPBlack; discriminate.
    + exact E.
Qed.

(** X2.  The encoded word is the transparent word 0x0000 exactly when
    alpha < 32, whatever the colour and the flags. *)
Theorem encode_transparent_iff (r g b alpha : Z)
    (forceSTP useSTPBlack : bool) :
  encode r g b alpha forceSTP useSTPBlack = 0x0000
  <-> alpha < LOWER_ALPHA_BOUND.
Proof.
  split.
  - intros Hzero.
    destruct (Z_lt_ge_dec alpha LOWER_ALPHA_BOUND) as [Hlo|Hlo];
      [exact Hlo|].
    exfalso.
    exact (encode_visible r g b alpha forceSTP useSTPBlack Hlo Hzero).
  - unfold LOWER_ALPHA_BOUND. intros Hlo.
    unfold encode, copyto, LOWER_ALPHA_BOUND, UPPER_ALPHA_BOUND.
    rewrite (geb_false alpha 32), (geb_false alpha 224) by lia.
    destruct forceSTP; reflexivity.
Qed.

Lemma testbit_small (a n k : Z) :
  0 <= a < 2 ^ k -> 0 <= k <= n -> Z.testbit a n = false.
Proof.
  intros Ha Hk. apply Z.testbit_false; [lia|].
  rewrite Z.div_small; [reflexivity|].
  assert (2 ^ k <= 2 ^ n) by (apply Z.pow_le_mono_r; lia). lia.
Qed.

Lemma land_shiftl_small (a b k : Z) :
  0 <= a < 2 ^ k -> 0 <= k -> Z.land a (Z.shiftl b k) = 0.
Proof.
  intros Ha Hk. apply Z.bits_inj'. intros n Hn.
  rewrite Z.land_spec, Z.bits_0.
  destruct (Z_lt_ge_dec n k) as [Hlt|Hge].
  - rewrite Z.shiftl_spec_low by lia. apply andb_false_r.
  - rewrite (testbit_small a n k) by lia. reflexivity.
Qed.

Lemma lor_shiftl_add (a b k : Z) :
  0 <= a < 2 ^ k -> 0 <= k -> Z.lor a (Z.shiftl b k) = a + b * 2 ^ k.
Proof.
  intros Ha Hk. rewrite <- Z.lxor_lor by (apply land_shiftl_small; lia).
  rewrite <- Z.add_nocarry_lxor by (apply land_shiftl_small; lia).
  rewrite Z.shiftl_mul_pow2 by lia. reflexivity.
Qed.

(** The solid word as a sum of three disjoint 5-bit fields. *)
Lemma solid_word_sum (r g b : Z) :
  is_u8 r -> is_u8 g -> is_u8 b ->
  solid_word r g b
  = (r * 31 + 127) / 255 + 32 * ((g * 31 + 127) / 255)
    + 1024 * ((b * 31 + 127) / 255).
Proof.
  intros Hr Hg Hb. rewrite solid_word_exact by assumption.
  pose proof (rescale5_range r Hr). pose proof (rescale5_range g Hg).
  pose proof (rescale5_range b Hb).
  rewrite (lor_shiftl_add _ _ 5) by (change (2 ^ 5) with 32; lia).
  rewrite (lor_shiftl_add _ _ 10) by (change (2 ^ 5) with 32;
                                      change (2 ^ 10) with 1024; lia).
  change (2 ^ 5) with 32. change (2 ^ 10) with 1024. lia.
Qed.

Lemma solid_word_lt_32768 (r g b : Z) :
  is_u8 r -> is_u8 g -> is_u8 b -> 0 <= solid_word r g b < 32768.
Proof.
  intros Hr Hg Hb. rewrite solid_word_sum by assumption.
  pose proof (rescale5_range r Hr). pose proof (rescale5_range g Hg).
  pose proof (rescale5_range b Hb). lia.
Qed.

(** X4.  The three 5-bit fields of the solid word do not overlap: each
    rescaled channel is read back from its own bits, and bit 15 is clear. *)
Theorem solid_word_fields (r g b : Z) :
  is_u8 r -> is_u8 g -> is_u8 b ->
  Z.land (solid_word r g b) 31 = (r * 31 + 127) / 255 /\
  Z.land (Z.shiftr (solid_word r g b) 5) 31 = (g * 31 + 127) / 255 /\
  Z.shiftr (solid_word r g b) 10 = (b * 31 + 127) / 255 /\
  0 <= solid_word r g b < 32768.
Proof.
  intros Hr Hg Hb. rewrite solid_word_sum by assumption.
  pose proof (rescale5_range r Hr). pose proof (rescale5_range g Hg).
  pose proof (rescale5_range b Hb).
  set (r5 := (r * 31 + 127) / 255) in *.
  set (g5 := (g * 31 + 127) / 255) in *.
  set (b5 := (b * 31 + 127) / 255) in *.
  change 31 with (Z.ones 5). rewrite !Z.land_ones by lia.
  rewrite !Z.shiftr_div_pow2 by lia.
  change (2 ^ 5) with 32. change (2 ^ 10) with 1024.
  assert (E5 : (r5 + 32 * g5 + 1024 * b5) / 32 = g5 + 32 * b5).
  { symmetry. apply (Z.div_unique _ 32 _ r5); lia. }
  repeat split; try lia.
  - symmetry. apply (Z.mod_unique _ 32 (g5 + 32 * b5)); lia.
  - rewrite E5. symmetry. apply (Z.mod_unique _ 32 b5); lia.
  - symmetry. apply (Z.div_unique _ 1024 _ (r5 + 32 * g5)); lia.
Qed.

Lemma solid_word_fields_witness :
  Z.land (solid_word 255 128 8) 31 = 31 /\
  Z.land (Z.shiftr (solid_word 255 128 8) 5) 31 = 16 /\
  Z.shiftr (solid_word 255 128 8) 10 = 1.
Proof.
  destruct (solid_word_fields 255 128 8) as (Hr & Hg & Hb & _);
    [unfold is_u8; lia .. |].
  rewrite Hr, Hg, Hb. repeat split; reflexivity.
Defined.

Lemma rescale_zero_iff (c : Z) :
  is_u8 c -> ((c * 31 + 127) / 255 = 0 <-> c <= 4).
Proof.
  unfold is_u8. intros Hc. rewrite Z.div_small_iff by lia. lia.
Qed.

(** X5.  The solid word of 8-bit channels is 0x0000 exactly when red,
    green and blue are all at most 4: these are the colours the black remap
    applies to. *)
Theorem solid_word_zero_iff (r g b : Z) :
  is_u8 r -> is_u8 g -> is_u8 b ->
  (solid_word r g b = 0 <-> r <= 4 /\ g <= 4 /\ b <= 4).
Proof.
  intros Hr Hg Hb. rewrite solid_word_sum by assumption.
  pose proof (rescale5_range r Hr). pose proof (rescale5_range g Hg).
  pose proof (rescale5_range b Hb).
  rewrite <- (rescale_zero_iff r Hr), <- (rescale_zero_iff g Hg),
    <- (rescale_zero_iff b Hb). lia.
Qed.

Lemma solid_word_zero_iff_witness :
  solid_word 4 4 4 = 0 /\ solid_word 5 0 0 <> 0.
Proof.
  split.
  - apply (solid_word_zero_iff 4 4 4); unfold is_u8; lia.
  - intros H. apply (solid_word_zero_iff 5 0 0) in H; unfold is_u8; lia.
Defined.

(** X6.  The 8-bit to 5-bit rescale is monotone and covers the full range:
    0 maps to 0 and 255 to 31. *)
Theorem rescale5_monotone (c d : Z) :
  is_u8 c -> is_u8 d -> c <= d ->
  rescale5 c <= rescale5 d /\ rescale5 0 = 0 /\ rescale5 255 = 31.
Proof.
  intros Hc Hd Hle. rewrite (rescale5_exact c Hc), (rescale5_exact d Hd).
  split; [apply Z.div_le_mono; lia|]. split; reflexivity.
Qed.

Lemma rescale5_monotone_witness :
  rescale5 100 <= rescale5 200 /\ rescale5 0 = 0 /\ rescale5 255 = 31.
Proof. apply (rescale5_monotone 100 200); unfold is_u8; lia. Defined.

(** X3.  For 8-bit channels, bit 15 of the encoded word is set exactly when
    alpha >= 32 and either forceSTP is set, or alpha < 224, or the solid
    word is 0x0000 and useSTPBlack is set. *)
Theorem encode_stp_bit (r g b alpha : Z) (forceSTP useSTPBlack : bool) :
  is_u8 r -> is_u8 g -> is_u8 b ->
  Z.testbit (encode r g b alpha forceSTP useSTPBlack) 15
  = (alpha >=? LOWER_ALPHA_BOUND)
    && (forceSTP || negb (alpha >=? UPPER_ALPHA_BOUND)
        || ((solid_word r g b =? 0) && useSTPBlack)).
Proof.
  intros Hr Hg Hb.
  pose proof (solid_word_lt_32768 r g b Hr Hg Hb) as Hs.
  assert (Hsolid : Z.testbit (solid_word r g b) 15 = false).
  { apply (testbit_small _ 15 15); [change (2 ^ 15) with 32768|]; lia. }
  assert (Hsemi : Z.testbit (semitransparent_word r g b) 15 = true).
  { unfold semitransparent_word. rewrite Z.lor_spec, Hsolid. reflexivity. }
  unfold encode, copyto, LOWER_ALPHA_BOUND, UPPER_ALPHA_BOUND,
    TRANSPARENT_COLOR, STP_BLACK_COLOR, BLACK_COLOR.
  destruct (Z_lt_ge_dec alpha 32) as [Hlo|Hlo].
  - rewrite (geb_false alpha 32), (geb_false alpha 224) by lia.
    destruct forceSTP; reflexivity.
  - rewrite (geb_true alpha 32) by lia.
    destruct forceSTP; cbn [negb andb orb]; [exact Hsemi|].
    destruct (Z_lt_ge_dec alpha 224) as [Hhi|Hhi].
    + rewrite (geb_false alpha 224) by lia. cbn [negb andb orb]. exact Hsemi.
    + rewrite (geb_true alpha 224) by lia. cbn [negb andb orb].
      destruct (solid_word r g b =? 0) eqn:E; cbn [andb].
      * destruct useSTPBlack; reflexivity.
      * exact Hsolid.
Qed.

Lemma encode_stp_bit_witness :
  Z.testbit (encode 0 0 0 255 false true) 15 = true /\
  Z.testbit (encode 200 100 50 255 false true) 15 = false.
Proof.
  split.
  - rewrite (encode_stp_bit 0 0 0 255 false true) by (unfold is_u8; lia).
    reflexivity.
  - rewrite (encode_stp_bit 200 100 50 255 false true)
      by (unfold is_u8; lia).
    reflexivity.
Defined.

(** X7.  useSTPBlack changes the encoded word only for a pixel with
    alpha >= 224 and solid word 0x0000 encoded without forceSTP. *)
Theorem stp_black_effect (r g b alpha : Z) (forceSTP : bool) :
  encode r g b alpha forceSTP true <> encode r g b alpha forceSTP false
  <-> forceSTP = false /\ alpha >= UPPER_ALPHA_BOUND /\ solid_word r g b = 0.
Proof.
  unfold encode, copyto, LOWER_ALPHA_BOUND, UPPER_ALPHA_BOUND,
    TRANSPARENT_COLOR, STP_BLACK_COLOR, BLACK_COLOR.
  destruct forceSTP; cbn [negb].
  - split; [intros H; contradiction H; reflexivity | intros [H _]; discriminate].
  - destruct (Z_lt_ge_dec alpha 224) as [Hhi|Hhi].
    + rewrite (geb_false alpha 224) by lia. cbn [andb].
      split; [intros H; contradiction H; reflexivity | lia].
    + rewrite (geb_true alpha 224) by lia. cbn [andb].
      destruct (Z.eqb_spec (solid_word r g b) 0) as [E|E].
      * split; [intros _; repeat split; [lia | exact E] | discriminate].
      * split; [intros H; contradiction H; reflexivity | tauto].
Qed.

(** X8.  On an array of three or more channels per pixel, other than
    four, no alpha channel is read and no encoded word is the transparent
    word 0x0000. *)
Theorem to16bpp_without_alpha_is_visible (c : nat) (rows : list (list pixel))
    (forceSTP useSTPBlack : bool) :
  (3 <= c)%nat ->
  c <> 4%nat ->
  Forall (Forall (fun px => length px = c)) rows ->
  Forall (Forall (fun word => word <> 0x0000))
         (to16bpp (mkArray3 c rows) forceSTP useSTPBlack).
Proof.
  intros _ Hc _. unfold to16bpp. cbn [cells shape2].
  apply Forall_forall. intros row Hrow.
  apply list_elem_of_In, in_map_iff in Hrow as (pxs & <- & _).
  apply Forall_forall. intros word Hword.
  apply list_elem_of_In, in_map_iff in Hword as (px & <- & _).
  unfold to16bpp_pixel, alpha_of. apply Nat.eqb_neq in Hc. rewrite Hc.
  apply encode_visible. unfold LOWER_ALPHA_BOUND. lia.
Qed.

Lemma to16bpp_without_alpha_is_visible_witness :
  Forall (Forall (fun word => word <> 0x0000))
         (to16bpp (mkArray3 3 [[ [0; 0; 0]; [255; 255; 255] ]]) false false).
Proof.
  apply to16bpp_without_alpha_is_visible.
  - lia.
  - lia.
  - repeat constructor.
Defined.


(** ** Quantizer and palette extractor *)

Lemma nth_index_of (px : pixel) (clut : list pixel) (d : pixel) :
  px ∈ clut -> nth (index_of px clut) clut d = px.
Proof.
  intros Hin. apply nth_lookup_Some. apply index_of_lookup, Hin.
Qed.

(** X10.  Quantization is lossless: for an image within the limit and with
    at most 256 distinct colours, replacing every index by its palette entry
    gives back the pixels; every index is a valid palette position and the
    index array has the shape of the image. *)
Theorem quantize_lossless (img : Image) (L : Z) :
  Z.of_nat (distinct_count img) <= L ->
  (distinct_count img <= 256)%nat ->
  exists q,
    quantizeImage img L = Ok q /\
    dequantize q = pixels img /\
    Forall (Forall (fun i => 0 <= i < Z.of_nat (length (p_palette q))))
           (p_data q) /\
    (forall h w, has_shape h w (pixels img) -> has_shape h w (p_data q)).
Proof.
  intros HK H256.
  assert (Hlen : length (np_unique (concat (pixels img)))
                 = distinct_count img).
  { unfold distinct_count, distinct_colors. apply np_unique_length. }
  assert (Hgt : (Z.of_nat (distinct_count img) >? L) = false).
  { destruct (Z.gtb_spec (Z.of_nat (distinct_count img)) L);
      [lia | reflexivity]. }
  eexists.
  split; [apply quantizeImage_within_capacity; assumption|].
  unfold dequantize. cbn [p_palette p_data].
  set (clut := np_unique (concat (pixels img))) in *.
  assert (Hin : forall row px, In row (pixels img) -> In px row -> px ∈ clut).
  { intros row px Hrow Hpx. apply elem_of_np_unique.
    apply list_elem_of_In, in_concat. eauto. }
  split; [|split].
  - rewrite map_map. rewrite <- (map_id (pixels img)) at 2.
    apply map_ext_in. intros row Hrow.
    rewrite map_map. rewrite <- (map_id row) at 2.
    apply map_ext_in. intros px Hpx.
    rewrite u8_index by (eauto; lia). rewrite Nat2Z.id.
    apply nth_index_of. eauto.
  - apply Forall_forall. intros irow Hirow.
    apply list_elem_of_In, in_map_iff in Hirow as (row & <- & Hrow).
    apply Forall_forall. intros i Hi.
    apply list_elem_of_In, in_map_iff in Hi as (px & <- & Hpx).
    rewrite u8_index by (eauto; lia).
    pose proof (index_of_lt px clut (Hin row px Hrow Hpx)). lia.
  - intros h w Hshape. apply has_shape_map, Hshape.
Qed.

Lemma quantize_lossless_witness :
  exists q,
    quantizeImage three_colors 16 = Ok q /\
    dequantize q = pixels three_colors.
Proof.
  destruct (quantize_lossless three_colors 16) as (q & Hq & Hd & _).
  - vm_compute. discriminate.
  - vm_compute. lia.
  - exists q. split; assumption.
Defined.

Lemma np_unique_same_colors (a b : list pixel) :
  (forall c, c ∈ a <-> c ∈ b) -> np_unique a = np_unique b.
Proof.
  intros Hsame. apply (Sorted_unique lex_le).
  - apply Sorted_lex_lt_le, StronglySorted_Sorted, np_unique_sorted.
  - apply Sorted_lex_lt_le, StronglySorted_Sorted, np_unique_sorted.
  - apply NoDup_Permutation; [apply np_unique_NoDup .. |].
    intros c. rewrite !elem_of_np_unique. apply Hsame.
Qed.

(** X11.  The palette depends only on the set of colours: an image with
    the same colours as one that quantizes, in any arrangement and number,
    quantizes too, to the same palette. *)
Theorem quantize_palette_depends_on_colors (a b : Image) (L : Z) (qa : PImage) :
  (forall c, c ∈ concat (pixels a) <-> c ∈ concat (pixels b)) ->
  quantizeImage a L = Ok qa ->
  exists qb, quantizeImage b L = Ok qb /\ p_palette qb = p_palette qa.
Proof.
  intros Hsame Hqa. unfold quantizeImage in *.
  rewrite <- (np_unique_same_colors _ _ Hsame).
  destruct (Z.of_nat (length (np_unique (concat (pixels a)))) >? L);
    [discriminate|].
  destruct (256 <? length (np_unique (concat (pixels a))))%nat;
    [discriminate|].
  eexists. split; [reflexivity|]. inversion Hqa. reflexivity.
Qed.

Lemma quantize_palette_depends_on_colors_witness :
  exists qb,
    quantizeImage three_colors_row 16 = Ok qb /\
    p_palette qb = [[0; 9; 9]; [1; 2; 3]; [3; 0; 0]].
Proof.
  apply (quantize_palette_depends_on_colors three_colors three_colors_row 16
           (mkPImage 2 2 [[2; 1]; [1; 0]] RGB
              [[0; 9; 9]; [1; 2; 3]; [3; 0; 0]] None)).
  - intros c. cbn [three_colors three_colors_row pixels concat app].
    rewrite !elem_of_cons, !elem_of_nil. tauto.
  - vm_compute. reflexivity.
Defined.

(** The palette extractor on an image with a transparency array. *)

Lemma chunks8_length_bound (n : nat) (l : list Z) :
  (length l <= n)%nat -> length (chunks8 l) = (length l / 8)%nat.
Proof.
  revert l. induction n as [|n IH]; intros l Hl.
  - destruct l; [reflexivity | simpl in Hl; lia].
  - do 8 (destruct l as [|? l]; [reflexivity|]).
    cbn [chunks8 length]. rewrite IH by (simpl in Hl; lia).
    change (S (S (S (S (S (S (S (S (length l)))))))))
      with (8 + length l)%nat.
    replace (8 + length l)%nat with (length l + 1 * 8)%nat by lia.
    rewrite Nat.div_add by lia. lia.
Qed.

Lemma chunks8_length (l : list Z) :
  length (chunks8 l) = (length l / 8)%nat.
Proof. apply (chunks8_length_bound (length l)). lia. Qed.

Lemma ljust_length (s : list Z) (w : nat) (fill : Z) :
  length (ljust s w fill) = Nat.max (length s) w.
Proof. unfold ljust. rewrite length_app, repeat_length. lia. Qed.

Lemma getImagePalette_transparency_error (f : list Z -> Z)
    (img : PImage) (alpha : list Z) :
  p_transparency img = Some alpha ->
  (length alpha <= length (p_palette img))%nat ->
  length (p_palette img) <> 0%nat ->
  length (p_palette img) <> 8%nat ->
  getImagePalette f img =
  Error (if Nat.eqb (length (p_palette img) mod 8) 0
         then ValueError_broadcast (length (p_palette img) / 8)
                                   (length (p_palette img))
         else ValueError_buffer_size (length (p_palette img))).
Proof.
  intros Ht Hle H0 H8. unfold getImagePalette, frombuffer. rewrite Ht.
  assert (HK : length (getpalette_RGBA img) = length (p_palette img)).
  { unfold getpalette_RGBA. apply length_map. }
  rewrite ljust_length, HK.
  rewrite (Nat.max_r _ _ Hle).
  destruct (Nat.eqb_spec (length (p_palette img) mod 8) 0) as [E|E];
    [|reflexivity].
  cbn [bind]. unfold assign_alpha.
  rewrite length_map, chunks8_length, ljust_length, HK, (Nat.max_r _ _ Hle).
  assert (Hdiv : (length (p_palette img) = 8 * (length (p_palette img) / 8))%nat).
  { pose proof (Nat.div_mod_eq (length (p_palette img)) 8). lia. }
  destruct (Nat.eqb_spec (length (p_palette img) / 8)
              (length (p_palette img))) as [E1|E1]; [lia|].
  destruct (Nat.eqb_spec (length (p_palette img) / 8) 1) as [E2|E2]; [lia|].
  reflexivity.
Qed.

(** X12.  An indexed image with a transparency array no longer than its
    palette, whose palette has neither 0 nor 8 entries, cannot be read:
    [getImagePalette] raises, on the buffer size when the palette size is
    not a multiple of 8 and on the broadcast otherwise, and so does
    [convertIndexedImage]. *)
Theorem getImagePalette_transparency_raises (f : list Z -> Z)
    (img : PImage) (alpha : list Z) (forceSTP useSTPBlack : bool) :
  p_transparency img = Some alpha ->
  (length alpha <= length (p_palette img))%nat ->
  length (p_palette img) <> 0%nat ->
  length (p_palette img) <> 8%nat ->
  getImagePalette f img =
  Error (if Nat.eqb (length (p_palette img) mod 8) 0
         then ValueError_broadcast (length (p_palette img) / 8)
                                   (length (p_palette img))
         else ValueError_buffer_size (length (p_palette img))) /\
  convertIndexedImage f img forceSTP useSTPBlack =
  Error (if Nat.eqb (length (p_palette img) mod 8) 0
         then ValueError_broadcast (length (p_palette img) / 8)
                                   (length (p_palette img))
         else ValueError_buffer_size (length (p_palette img))).
Proof.
  intros Ht Hle H0 H8.
  pose proof (getImagePalette_transparency_error f img alpha Ht Hle H0 H8)
    as E.
  split; [exact E|]. unfold convertIndexedImage. rewrite E. reflexivity.
Qed.

Lemma getImagePalette_transparency_raises_witness :
  getImagePalette cast_zero trns_one_byte = Error (ValueError_buffer_size 2) /\
  convertIndexedImage cast_zero trns_one_byte false false
  = Error (ValueError_buffer_size 2).
Proof.
  apply (getImagePalette_transparency_raises cast_zero trns_one_byte [0]
           false false).
  - reflexivity.
  - cbn. lia.
  - cbn. lia.
  - cbn. lia.
Defined.

(** ** Packing *)

Lemma pack_pair (lo hi : Z) :
  is_nibble lo -> is_nibble hi ->
  Z.lor lo (u8 (Z.shiftl hi 4)) = lo + 16 * hi.
Proof.
  unfold is_nibble, u8. intros Hlo Hhi.
  rewrite Z.shiftl_mul_pow2 by lia. change (2 ^ 4) with 16.
  rewrite Z.mod_small by lia.
  replace (hi * 16) with (Z.shiftl hi 4)
    by (rewrite Z.shiftl_mul_pow2 by lia; reflexivity).
  rewrite (lor_shiftl_add lo hi 4) by (change (2 ^ 4) with 16; lia).
  change (2 ^ 4) with 16. lia.
Qed.

Lemma unpack_pair (lo hi : Z) :
  is_nibble lo -> is_nibble hi ->
  Z.land (lo + 16 * hi) 15 = lo /\ Z.shiftr (lo + 16 * hi) 4 = hi.
Proof.
  unfold is_nibble. intros Hlo Hhi.
  change 15 with (Z.ones 4). rewrite Z.land_ones, Z.shiftr_div_pow2 by lia.
  change (2 ^ 4) with 16. split; symmetry.
  - apply (Z.mod_unique _ 16 hi); lia.
  - apply (Z.div_unique _ 16 _ lo); lia.
Qed.

Lemma pack_nibbles_cons2 (a b : Z) (t : list Z) :
  pack_nibbles (a :: b :: t)
  = Z.lor a (u8 (Z.shiftl b 4)) :: pack_nibbles t.
Proof. reflexivity. Qed.

Lemma unpack_pack_bound (n : nat) (row : list Z) :
  (length row <= n)%nat ->
  Forall is_nibble row -> Nat.even (length row) = true ->
  unpack_nibbles (pack_nibbles row) = row.
Proof.
  revert row. induction n as [|n IH]; intros row Hn Hall Heven.
  - destruct row; [reflexivity | simpl in Hn; lia].
  - destruct row as [|a [|b t]]; [reflexivity | discriminate Heven |].
    rewrite pack_nibbles_cons2.
    apply Forall_cons in Hall as [Ha Hall].
    apply Forall_cons in Hall as [Hb Hall].
    rewrite pack_pair by assumption. cbn [unpack_nibbles flat_map app].
    destruct (unpack_pair a b Ha Hb) as [-> ->].
    do 2 f_equal. apply IH; [simpl in Hn; lia | exact Hall | exact Heven].
Qed.

(** X13.  Nibble packing loses nothing on indices below 16: unpacking a
    packed row of even length gives the row back, and for any length the
    first [length row] unpacked indices of the padded, packed row are the
    row. *)
Theorem unpack_pack_nibbles (row : list Z) :
  Forall is_nibble row ->
  take (length row) (unpack_nibbles (pack_nibbles (pad_even row))) = row /\
  (Nat.even (length row) = true ->
   unpack_nibbles (pack_nibbles row) = row).
Proof.
  intros Hall. split.
  - rewrite (unpack_pack_bound (length (pad_even row))).
    + unfold pad_even. destruct (Nat.odd (length row)).
      * apply take_app_length.
      * apply firstn_all.
    + lia.
    + unfold pad_even. destruct (Nat.odd (length row)); [|exact Hall].
      apply Forall_app. split; [exact Hall|].
      repeat constructor; lia.
    + apply pad_even_length.
  - intros Heven. apply (unpack_pack_bound (length row)); auto.
Qed.

Lemma unpack_pack_nibbles_witness :
  take 3 (unpack_nibbles (pack_nibbles (pad_even [1; 15; 7]))) = [1; 15; 7].
Proof.
  apply (proj1 (unpack_pack_nibbles [1; 15; 7]
                  ltac:(repeat constructor; lia))).
Defined.

Lemma unpack_nibbles_app (a b : list Z) :
  unpack_nibbles (a ++ b) = unpack_nibbles a ++ unpack_nibbles b.
Proof. unfold unpack_nibbles. apply flat_map_app. Qed.

Lemma take_unpack_packed (row : list Z) :
  Forall is_nibble row ->
  take (length row)
       (unpack_nibbles (pad_even (pack_nibbles (pad_even row)))) = row.
Proof.
  intros Hall.
  assert (Hpad : Forall is_nibble (pad_even row)).
  { unfold pad_even. destruct (Nat.odd (length row)); [|exact Hall].
    apply Forall_app. split; [exact Hall|]. repeat constructor; lia. }
  assert (Hlen : (length row <= length (pad_even row))%nat).
  { unfold pad_even. destruct (Nat.odd (length row));
      [rewrite length_app|]; lia. }
  assert (E : unpack_nibbles (pack_nibbles (pad_even row)) = pad_even row).
  { apply (unpack_pack_bound (length (pad_even row)));
      [lia | exact Hpad | apply pad_even_length]. }
  assert (Htake : take (length row) (pad_even row) = row).
  { unfold pad_even. destruct (Nat.odd (length row));
      [apply take_app_length | apply firstn_all]. }
  unfold pad_even at 1.
  destruct (Nat.odd (length (pack_nibbles (pad_even row)))).
  - rewrite unpack_nibbles_app, E. rewrite take_app_le by exact Hlen.
    exact Htake.
  - rewrite E. exact Htake.
Qed.

(** Row byte counts. *)

Lemma pad_width (w : nat) :
  (if Nat.odd w then S w else w) = (2 * ((w + 1) / 2))%nat.
Proof.
  destruct (Nat.odd w) eqn:E.
  - apply Nat.odd_spec in E as [m ->].
    replace (2 * m + 1 + 1)%nat with ((m + 1) * 2)%nat by lia.
    rewrite Nat.div_mul by lia. lia.
  - assert (Hev : Nat.even w = true) by (rewrite <- Nat.negb_odd, E; reflexivity).
    apply Nat.even_spec in Hev as [m ->].
    replace (2 * m + 1)%nat with (1 + m * 2)%nat by lia.
    rewrite Nat.div_add by lia. cbn. lia.
Qed.

Lemma quarter_width (w : nat) :
  (2 * (((w + 1) / 2 + 1) / 2) = 2 * ((w + 3) / 4))%nat.
Proof.
  pose proof (Nat.div_mod_eq (w + 1) 2) as H1.
  pose proof (Nat.mod_upper_bound (w + 1) 2 ltac:(lia)) as B1.
  pose proof (Nat.div_mod_eq ((w + 1) / 2 + 1) 2) as H2.
  pose proof (Nat.mod_upper_bound ((w + 1) / 2 + 1) 2 ltac:(lia)) as B2.
  pose proof (Nat.div_mod_eq (w + 3) 4) as H3.
  pose proof (Nat.mod_upper_bound (w + 3) 4 ltac:(lia)) as B3.
  lia.
Qed.
Lemma half_double (n : nat) : (2 * n / 2 = n)%nat.
Proof. rewrite Nat.mul_comm. apply Nat.div_mul. lia. Qed.

(** X14.  The byte count of every output row: for an index array of width
    W, 2 * floor((W + 3) / 4) bytes when the palette has at most 16 entries
    and 2 * floor((W + 1) / 2) bytes otherwise; the number of rows is
    unchanged. *)
Theorem packed_row_bytes (f : list Z -> Z) (img : PImage)
    (forceSTP useSTPBlack : bool) (palette : list pixel) :
  getImagePalette f img = Ok palette ->
  (length palette <= 256)%nat ->
  has_shape (p_height img) (p_width img) (p_data img) ->
  exists image clut,
    convertIndexedImage f img forceSTP useSTPBlack = Ok (image, clut) /\
    has_shape (p_height img)
      (if (length palette <=? 16)%nat
       then 2 * ((p_width img + 3) / 4) else 2 * ((p_width img + 1) / 2))%nat
      image.
Proof.
  intros Hpal Hle Hshape. do 2 eexists.
  split; [apply (convertIndexedImage_image f img _ _ palette); assumption|].
  pose proof (has_shape_pad_even _ _ _ Hshape) as H1.
  destruct (length palette <=? 16)%nat.
  - pose proof (has_shape_pad_even _ _ _ (has_shape_pack _ _ _ H1)) as H2.
    unfold nibble_packed. rewrite map_map in H2.
    rewrite map_map in H2.
    rewrite !pad_width, Nat.div2_div, half_double, quarter_width in H2.
    exact H2.
  - unfold one_byte_per_pixel. rewrite <- pad_width. exact H1.
Qed.

Lemma packed_row_bytes_witness :
  exists image clut,
    convertIndexedImage cast_zero small_indexed false false
    = Ok (image, clut) /\
    has_shape 2 2 image.
Proof.
  apply (packed_row_bytes cast_zero small_indexed false false
           [[0; 0; 0; 255]; [255; 0; 0; 255]]).
  - reflexivity.
  - cbn. lia.
  - split; [reflexivity|]. repeat constructor.
Defined.

(** ** The converter as a whole *)

(** X9.  At depth 16 an RGB image is converted without error and no
    written word is the transparent word 0x0000. *)
Theorem main_rgb_16bpp_is_visible (f : list Z -> Z) (args : Namespace) :
  bpp args = Bpp16 -> mode (input args) = RGB ->
  exists image,
    main f args = Ok (image, None) /\
    Forall (Forall (fun word => word <> 0x0000)) image.
Proof.
  intros Hb Hm. unfold main. rewrite Hb. cbn [bpp_value Z.eqb Pos.eqb].
  eexists. split; [reflexivity|].
  unfold to16bpp, convert_RGBA. cbn [cells shape2]. rewrite Hm.
  rewrite map_map. apply Forall_forall. intros row Hrow.
  apply list_elem_of_In, in_map_iff in Hrow as (pxs & <- & _).
  rewrite map_map. apply Forall_forall. intros word Hword.
  apply list_elem_of_In, in_map_iff in Hword as (px & <- & _).
  unfold to16bpp_pixel. change (alpha_of 4 (to_rgba RGB px)) with 255.
  apply encode_visible. unfold LOWER_ALPHA_BOUND. lia.
Qed.

Lemma main_rgb_16bpp_is_visible_witness :
  exists image,
    main cast_zero (mkArgs Bpp16 false true three_colors false)
    = Ok (image, None) /\
    Forall (Forall (fun word => word <> 0x0000)) image.
Proof.
  apply (main_rgb_16bpp_is_visible cast_zero
           (mkArgs Bpp16 false true three_colors false)); reflexivity.
Defined.

(** X15.  The failures of [main]: at depth 16 it never fails; at an indexed
    depth it fails exactly when the palette path is missing, or, the path
    given, when the image has more than 2^bpp distinct colours, with the
    error reporting that count and limit. *)
Theorem main_failures (f : list Z -> Z) (args : Namespace) (e : error) :
  main f args = Error e <->
  bpp args <> Bpp16 /\
  ((clutOutput args = false /\ e = ParserError_palette_path) \/
   (clutOutput args = true /\
    Z.of_nat (distinct_count (input args)) > 2 ^ bpp_value (bpp args) /\
    e = RuntimeError (distinct_count (input args))
                     (2 ^ bpp_value (bpp args)))).
Proof.
  assert (Hdec : bpp args = Bpp16 \/ bpp args <> Bpp16).
  { destruct (bpp args); [right | right | left]; congruence. }
  destruct Hdec as [Hb|Hb].
  - unfold main. rewrite Hb. cbn [bpp_value Z.eqb Pos.eqb].
    split; [discriminate | intros [H _]; congruence].
  - assert (Hb16 : (bpp_value (bpp args) =? 16) = false).
    { destruct (bpp args); [reflexivity | reflexivity | congruence]. }
    assert (H256 : 2 ^ bpp_value (bpp args) <= 256).
    { destruct (bpp args); [cbn; lia | cbn; lia | congruence]. }
    unfold main. rewrite Hb16.
    destruct (clutOutput args) eqn:Hc; cbn [negb].
    + rewrite quantizeImage_unfold.
      destruct (Z.gtb_spec (Z.of_nat (distinct_count (input args)))
                  (2 ^ bpp_value (bpp args))) as [Hgt|Hle].
      * cbn [bind]. split.
        -- intros H. inversion H. split; [exact Hb|]. right.
           repeat split. lia.
        -- intros [_ [[H _]|(_ & _ & ->)]]; [discriminate | reflexivity].
      * destruct (Nat.ltb_spec 256 (distinct_count (input args)))
          as [Hover|Hcap]; [lia|].
        cbn [bind].
        match goal with
        | |- context [convertIndexedImage f ?q ?fs ?us] =>
            destruct (convertIndexedImage_clut f q fs us (getpalette_RGBA q))
              as [image Himage]
        end.
        -- apply getImagePalette_no_transparency. reflexivity.
        -- unfold getpalette_RGBA. cbn [p_palette p_rawmode].
           rewrite length_map, np_unique_length.
           unfold distinct_count, distinct_colors in Hle. lia.
        -- rewrite Himage. cbn [bind]. split; [discriminate|].
           intros [_ [[H _]|(_ & H & _)]]; [discriminate | lia].
    + split.
      * intros H. inversion H. split; [exact Hb|]. left. tauto.
      * intros [_ [[_ ->]|(H & _)]]; [reflexivity | discriminate].
Qed.

(** X16.  The two flags reach the palette only: when an indexed conversion
    succeeds, it succeeds for any other flags with the same image array. *)
Theorem indexed_image_ignores_flags (f : list Z -> Z) (img : PImage)
    (fs us fs' us' : bool) (image clut : list (list Z)) :
  convertIndexedImage f img fs us = Ok (image, clut) ->
  exists clut', convertIndexedImage f img fs' us' = Ok (image, clut').
Proof.
  unfold convertIndexedImage.
  destruct (getImagePalette f img) as [palette|e]; [|discriminate].
  cbn [bind]. cbv zeta.
  destruct ((if (length palette <=? 16)%nat then 16 else 256)
            - Z.of_nat (length palette) =? 0).
  - cbn [bind]. intros H. inversion H. eexists. reflexivity.
  - destruct ((if (length palette <=? 16)%nat then 16 else 256)
              - Z.of_nat (length palette) <? 0); [discriminate|].
    cbn [bind]. intros H. inversion H. eexists. reflexivity.
Qed.

Lemma indexed_image_ignores_flags_witness :
  exists clut,
    convertIndexedImage cast_zero small_indexed true true
    = Ok ([[16; 1]; [1; 1]], clut).
Proof.
  apply (indexed_image_ignores_flags cast_zero small_indexed false false
           true true [[16; 1]; [1; 1]]
           [[0x0421; 31; 0; 0; 0; 0; 0; 0; 0; 0; 0; 0; 0; 0; 0; 0]]).
  vm_compute. reflexivity.
Defined.

Lemma padded_clut_nth (palette : list pixel) (fs us : bool) (i : nat) (px : pixel) :
  palette !! i = Some px ->
  nth i (padded_clut palette fs us) 0 = to16bpp_pixel 4 px fs us.
Proof.
  intros Hi. unfold padded_clut. apply nth_lookup_Some.
  rewrite lookup_app_l by (rewrite length_map; apply lookup_lt_is_Some; eauto).
  change (map (fun p => to16bpp_pixel 4 p fs us) palette)
    with ((fun p => to16bpp_pixel 4 p fs us) <$> palette).
  rewrite list_lookup_fmap, Hi. reflexivity.
Qed.

(** X17.  An indexed conversion shows the same colours as the direct one:
    on a well-shaped image within the colour limit, looking up in the
    written palette the indices of the written image (unpacked from nibbles
    when the image has at most 16 colours, padding columns dropped) gives
    the 16-bit words of the depth-16 encoder run with both flags. *)
Theorem indexed_output_decodes (f : list Z -> Z) (args : Namespace) :
  bpp args <> Bpp16 ->
  clutOutput args = true ->
  has_shape (height (input args)) (width (input args))
            (pixels (input args)) ->
  Z.of_nat (distinct_count (input args)) <= 2 ^ bpp_value (bpp args) ->
  exists image clut,
    main f args = Ok (image, Some [clut]) /\
    clut_lookup clut
      (map (fun row =>
              take (width (input args))
                   (if (distinct_count (input args) <=? 16)%nat
                    then unpack_nibbles row else row))
           image)
    = direct16_both_flags (input args) (force_stp args) (stp_black args).
Proof.
  intros Hbpp Hclut Hshape HK.
  assert (H256 : 2 ^ bpp_value (bpp args) <= 256).
  { destruct (bpp args); [cbn; lia | cbn; lia | congruence]. }
  destruct (main_indexed f args Hbpp Hclut Hshape HK)
    as (q & Hq & Hlen & Hmain).
  rewrite quantizeImage_within_capacity in Hq by lia.
  inversion Hq as [Eq]. clear Hq.
  set (clut := np_unique (concat (pixels (input args)))) in *.
  assert (Hpal : p_palette q = clut) by (rewrite <- Eq; reflexivity).
  assert (Hdata : p_data q
                  = map (map (fun px => u8 (Z.of_nat (index_of px clut))))
                        (pixels (input args)))
    by (rewrite <- Eq; reflexivity).
  assert (Hmode : p_rawmode q = mode (input args))
    by (rewrite <- Eq; reflexivity).
  rewrite Hpal in Hlen.
  do 2 eexists. split; [exact Hmain|].
  unfold direct16_both_flags, to16bpp, convert_RGBA, clut_lookup.
  cbn [cells shape2]. rewrite Hdata.
  destruct Hshape as [_ Hrows]. rewrite Forall_forall in Hrows.
  assert (Hin : forall row px,
             In row (pixels (input args)) -> In px row -> px ∈ clut).
  { intros row px Hrow Hpx. apply elem_of_np_unique.
    apply list_elem_of_In, in_concat. eauto. }
  assert (Hidx : forall row,
             In row (pixels (input args)) ->
             map (fun i => nth (Z.to_nat i)
                             (padded_clut (getpalette_RGBA q)
                                (force_stp args) (stp_black args)) 0)
                 (map (fun px => u8 (Z.of_nat (index_of px clut))) row)
             = map (fun px => to16bpp_pixel 4 px (force_stp args)
                                (stp_black args))
                   (map (to_rgba (mode (input args))) row)).
  { intros row Hrow. rewrite !map_map. apply map_ext_in. intros px Hpx.
    rewrite u8_index by (eauto; lia). rewrite Nat2Z.id.
    apply padded_clut_nth. unfold getpalette_RGBA. rewrite Hpal, Hmode.
    change (map (to_rgba (mode (input args))) clut)
      with (to_rgba (mode (input args)) <$> clut).
    rewrite list_lookup_fmap, index_of_lookup by eauto. reflexivity. }
  destruct (Nat.leb_spec (distinct_count (input args)) 16) as [H16|H16].
  - unfold nibble_packed. rewrite !map_map. apply map_ext_in.
    intros row Hrow. rewrite <- (Hidx row Hrow). f_equal.
    rewrite <- (Hrows row) by (apply list_elem_of_In; exact Hrow).
    rewrite <- (length_map (fun px => u8 (Z.of_nat (index_of px clut))) row)
      at 1.
    apply take_unpack_packed.
    apply Forall_forall. intros i Hi.
    apply list_elem_of_In, in_map_iff in Hi as (px & <- & Hpx).
    rewrite u8_index by (eauto; lia).
    pose proof (index_of_lt px clut (Hin row px Hrow Hpx)).
    unfold is_nibble. lia.
  - unfold one_byte_per_pixel. rewrite !map_map. apply map_ext_in.
    intros row Hrow. rewrite <- (Hidx row Hrow). f_equal.
    rewrite <- (Hrows row) by (apply list_elem_of_In; exact Hrow).
    rewrite <- (length_map (fun px => u8 (Z.of_nat (index_of px clut))) row)
      at 1.
    unfold pad_even.
    destruct (Nat.odd (length (map (fun px => u8 (Z.of_nat (index_of px clut))) row)));
      [apply take_app_length | apply firstn_all].
Qed.

Lemma indexed_output_decodes_witness :
  exists image clut,
    main cast_zero (mkArgs Bpp8 false true black_white true)
    = Ok (image, Some [clut]) /\
    clut_lookup clut (map (fun row => take 2 (unpack_nibbles row)) image)
    = [[0x8000; 0x7FFF]].
Proof.
  apply (indexed_output_decodes cast_zero
           (mkArgs Bpp8 false true black_white true)).
  - discriminate.
  - reflexivity.
  - split; [reflexivity|]. repeat constructor.
  - vm_compute. discriminate.
Defined.
